(** * The Docker pod driver of the agola executor

    A shallow embedding of
    [internal/services/executor/driver/docker.go]: the driver's data,
    its calls to the container runtime, and the operations [NewPod],
    [GetPods], [Exec], [Wait], [Stop] and [Remove], followed by the
    properties of the driver's specification that were checked against
    them.

    The runtime (the Docker SDK client, the output sink, the toolbox
    file on disk) is not part of the driver: it is an oracle, a record
    of functions over an abstract world [W].  Every driver operation is
    a computation that threads the world, may fail the way the Go code
    fails (an [error] value or a run-time panic) and emits the sequence
    of runtime calls it issued. *)

From Stdlib Require Import ZArith String Ascii List Lia DecimalString.
From stdpp Require Import base option list gmap strings sorting.

Local Open Scope string_scope.
Local Open Scope Z_scope.
Local Open Scope list_scope.

(** ** Errors and outcomes *)

(** An error value produced outside the driver: by the runtime, by a
    library, or by the caller's context. *)
Inductive cause :=
| context_Canceled
| context_DeadlineExceeded
| foreign (msg : string).

(** The error values of the driver.  One constructor per [errors.Errorf]
    or [errors.Wrapf] of the file; [WithStack] carries a foreign error
    (the stack trace it records is not modelled, so wrapping an error a
    second time is the identity). *)
Inductive error :=
| EmptyContainerConfig
| NoContainerWithLabels (searchLabels : gmap string string)
| DuplicateContainerIndex (cIndex : Z)
| ExpectedContainers (expected got : nat)
| MissingVolumeConfig
| ContainerNotFound (name : string)
| ToolboxPathFailed (arch : string) (c : cause)
| StopErrors (errs : list cause)
| RemoveErrors (errs : list cause)
| WithStack (c : cause).

(** What a call into the runtime or a library answers. *)
Inductive reply (A : Type) :=
| Done (a : A)
| Fail (c : cause).
Arguments Done {A} a.
Arguments Fail {A} c.

(** How a driver operation ends: a value, an error value, or a Go
    run-time panic. *)
Inductive outcome (A : Type) :=
| Ok (a : A)
| Err (e : error)
| Panic (msg : string).
Arguments Ok {A} a.
Arguments Err {A} e.
Arguments Panic {A} msg.

Definition nilDereference : string := "invalid memory address or nil pointer dereference".
Definition indexOutOfRange : string := "index out of range".

(** ** Go library functions used by the driver *)

(** [strconv.Atoi]: an optional sign, then at least one decimal digit
    and nothing else, the value within the 64-bit [int]. *)
Definition digit_of (c : ascii) : option Z :=
  let n := Z.of_nat (nat_of_ascii c) in
  if (48 <=? n) && (n <=? 57) then Some (n - 48) else None.

Fixpoint parse_digits (s : string) (acc : Z) : option Z :=
  match s with
  | EmptyString => Some acc
  | String c r =>
      match digit_of c with
      | Some d => parse_digits r (10 * acc + d)
      | None => None
      end
  end.

Definition strconv_Atoi (s : string) : option Z :=
  let '(neg, body) :=
    match s with
    | String "+"%char r => (false, r)
    | String "-"%char r => (true, r)
    | _ => (false, s)
    end in
  match body with
  | EmptyString => None
  | _ =>
      match parse_digits body 0 with
      | Some n =>
          let v := if neg then - n else n in
          if (- 2 ^ 63 <=? v) && (v <=? 2 ^ 63 - 1) then Some v else None
      | None => None
      end
  end.

(** [strconv.Itoa]. *)
Definition strconv_Itoa (z : Z) : string := NilZero.string_of_int (Z.to_int z).

(** [cmp.Compare] on [int]. *)
Definition cmp_Compare (a b : Z) : Z :=
  if a <? b then -1 else if b <? a then 1 else 0.

(** [slices.SortFunc] and [sort.Sort].  Go's sorts are not stable; the
    model inserts each element before the first element that compares
    strictly greater.  On lists without two equal keys every sort gives
    this result. *)
Section Sorting.
Context {A : Type}.

Fixpoint sort_insert (cmp : A → A → Z) (x : A) (l : list A) : list A :=
  match l with
  | [] => [x]
  | y :: r => if cmp y x <=? 0 then y :: sort_insert cmp x r else x :: y :: r
  end.

Definition slices_SortFunc (cmp : A → A → Z) (l : list A) : list A :=
  foldr (sort_insert cmp) [] l.
End Sorting.

(** [strings.Compare]. *)
Definition strings_Compare (a b : string) : Z :=
  match String.compare a b with
  | Lt => -1
  | Eq => 0
  | Gt => 1
  end.

(** ** Runtime data (the fields of the Docker SDK types the driver uses) *)

Record MountPoint := { Destination : string; MountSource : string }.

Record Container := {
  ID : string;
  Labels : gmap string string;
  Mounts : list MountPoint
}.

Record Volume := {
  VolumeName : string;
  VolumeLabels : gmap string string
}.

Record ImageSummary := { ImageID : string }.

Inductive MountType := TypeVolume | TypeTmpfs.

Record Mount := {
  mType : MountType;
  mSource : string;
  mTarget : string;
  mReadOnly : bool;
  mTmpfsSizeBytes : option Z
}.

Record container_Config := {
  Entrypoint : list string;
  cEnv : list string;
  cWorkingDir : string;
  cImage : string;
  cTty : bool;
  cLabels : gmap string string
}.

Record container_HostConfig := {
  Binds : list string;
  HostPrivileged : bool;
  NetworkMode : string;
  HostMounts : list Mount
}.

Record dockertypes_ExecConfig := {
  xCmd : list string;
  xTty : bool;
  xAttachStdin : bool;
  xAttachStdout : bool;
  xAttachStderr : bool;
  xUser : string;
  xDetach : bool
}.

Record ExecInspect := { Running : bool; ExitCode : Z }.

(** ** Driver data *)

(** Modelled from the spec: the registry credential entry of package
    [registry], which is not among the sources; the driver only looks
    it up and hands it to [json.Marshal]. *)
Record DockerConfigAuth := { Username : string; Password : string; Auth : string }.

Definition zeroAuth : DockerConfigAuth := {| Username := ""; Password := ""; Auth := "" |}.

Record DockerConfig := { Auths : gmap string DockerConfigAuth }.

Record DockerDriver := {
  toolboxPath : string;
  initImage : string;
  initDockerConfig : option DockerConfig;
  executorID : string;
  arch : string;
  network : string
}.

(** The pod configuration types are declared in the package's
    [driver.go]; these are the fields [docker.go] reads. *)
Record TmpFSVolume := { TmpFSSize : Z }.

Record VolumeConfig := { Path : string; TmpFS : option TmpFSVolume }.

Record ContainerConfig := {
  Cmd : list string;
  Env : gmap string string;
  WorkingDir : string;
  Image : string;
  User : string;
  Privileged : bool;
  Name : string;
  Volumes : list VolumeConfig
}.

Record PodConfig := {
  pcID : string;
  pcTaskID : string;
  Containers : list ContainerConfig;
  InitVolumeDir : string;
  pcDockerConfig : option DockerConfig
}.

Record ExecConfig := {
  ecContainer : string;
  ecCmd : list string;
  ecEnv : gmap string string;
  ecWorkingDir : string;
  ecUser : string;
  ecAttachStdin : bool;
  ecTty : bool;
  ecStdout : option string;
  ecStderr : option string
}.

Record DockerContainer := {
  Index : Z;
  dcContainer : Container
}.

Record DockerPod := {
  id : string;
  labels : option (gmap string string);
  containers : list DockerContainer;
  containersMap : gmap string DockerContainer;
  toolboxVolumeName : string;
  projectVolumeName : string;
  podExecutorID : string;
  initVolumeDir : string
}.

Record DockerContainerExec := {
  execID : string;
  hresp : string
}.

(** [ContainersByIndexSortFunc]. *)
Definition ContainersByIndexSortFunc (a b : DockerContainer) : Z :=
  cmp_Compare (Index a) (Index b).

(** [sort.Sort(MountSlice(mounts))]: by destination. *)
Definition MountSlice_cmp (a b : MountPoint) : Z :=
  strings_Compare (Destination a) (Destination b).

Definition sortMounts (c : Container) : Container :=
  {| ID := ID c; Labels := Labels c;
     Mounts := slices_SortFunc MountSlice_cmp (Mounts c) |}.

(** [WithDockerDriverNetwork]: the option stores the network name in
    the driver. *)
Definition WithDockerDriverNetwork (net : string) (d : DockerDriver) : DockerDriver :=
  {| toolboxPath := toolboxPath d; initImage := initImage d;
     initDockerConfig := initDockerConfig d; executorID := executorID d;
     arch := arch d; network := net |}.

Definition WithDockerDriverInitDockerConfig (c : option DockerConfig) (d : DockerDriver)
  : DockerDriver :=
  {| toolboxPath := toolboxPath d; initImage := initImage d;
     initDockerConfig := c; executorID := executorID d;
     arch := arch d; network := network d |}.

(** [NewDockerDriver]: [cli] is what [client.NewClientWithOpts] answers,
    [GOARCH] is [runtime.GOARCH]; the options are applied in order. *)
Definition NewDockerDriver (cli : reply unit) (GOARCH : string)
    (executorID toolboxPath initImage : string)
    (opts : list (DockerDriver → DockerDriver)) : outcome DockerDriver :=
  match cli with
  | Fail err => Err (WithStack err)
  | Done _ =>
      Ok (foldl (λ d o, o d)
            {| toolboxPath := toolboxPath; initImage := initImage;
               initDockerConfig := None; executorID := executorID;
               arch := GOARCH; network := "" |}
            opts)
  end.

Definition Setup (d : DockerDriver) : outcome unit := Ok tt.

(** since we are using the local docker driver we can return our go arch
    information *)
Definition Archs (d : DockerDriver) : outcome (list string) := Ok [arch d].

(** use the same group as the executor id *)
Definition ExecutorGroup (d : DockerDriver) : outcome string := Ok (executorID d).

Definition GetExecutors (d : DockerDriver) : outcome (list string) := Ok [executorID d].

(** ** Constants, libraries and the runtime *)

(** Modelled from the spec: the label keys and the other constants of
    the package, declared in [driver.go], which is not among the
    sources.  The development is parametric in them; [specConstants]
    below gives them the names the specification uses. *)
Record Constants := {
  labelPrefix : string;
  agolaLabelKey : string;
  agolaLabelValue : string;
  executorIDKey : string;
  podIDKey : string;
  taskIDKey : string;
  containerIndexKey : string;
  containerNameKey : string;
  volumeNameKey : string;
  toolboxVolumeName_const : string;
  projectVolumeName_const : string;
  mainContainerName : string;
  defaultProjectDir : string
}.

(** Functions of other packages ([encoding/json], [encoding/base64],
    [path/filepath], the repository's [registry] package and the
    package's own [toolboxExecPath]) that [docker.go] calls. *)
Record Libs := {
  json_Marshal_auth : DockerConfigAuth → reply string;
  json_Marshal_env : gmap string string → reply string;
  base64_URLEncoding_EncodeToString : string → string;
  filepath_Join : string → string → string;
  registry_GetRegistry : string → reply string;
  registry_GetImageTagOrDigest : string → reply string;
  toolboxExecPath : string → string → reply string
}.

(** The calls a driver operation issues, with their arguments, in the
    order of the Docker SDK client's methods.  A [filters.Args] is a
    set of (name, value) pairs.  [Enter_fetchImage] is not a runtime
    call: it marks an entry into [fetchImage] with its [alwaysFetch]
    argument, so that who asked for a forced pull stays visible. *)
Inductive Call :=
| ImageList (filters : gset (string * string))
| ImagePull (image registryAuth : string)
| io_Copy (sink data : string)
| VolumeCreate (driver : string) (labels : gmap string string)
| ContainerCreate (config : container_Config) (hostConfig : container_HostConfig)
| ContainerStart (containerID : string)
| archive_CopyInfoSourcePath (path : string)
| archive_TarResource (path rebaseName : string)
| archive_Close (srcArchive : string)
| CopyToContainer (containerID dstPath srcArchive : string)
| ContainerRemove (containerID : string) (force : bool)
| ContainerList (filters : gset (string * string)) (all : bool)
| VolumeList (filters : gset (string * string))
| VolumeRemove (name : string) (force : bool)
| ContainerStop (containerID : string) (timeout : Z)
| ContainerExecCreate (containerID : string) (config : dockertypes_ExecConfig)
| ContainerExecAttach (execID : string) (detach tty : bool)
| ContainerExecInspect (execID : string)
| time_Sleep (milliseconds : Z)
| hresp_Close (conn : string)
| hresp_CloseWrite (conn : string)
| Conn_Write (conn data : string)
| Enter_fetchImage (image : string) (alwaysFetch : bool).

(** The runtime: what each call answers in a world, and the world it
    leaves. *)
Record Runtime (W : Type) := {
  on_ImageList : gset (string * string) → W → reply (list ImageSummary) * W;
  on_ImagePull : string → string → W → reply string * W;
  on_io_Copy : string → string → W → reply unit * W;
  on_VolumeCreate : string → gmap string string → W → reply Volume * W;
  on_ContainerCreate : container_Config → container_HostConfig → W → reply string * W;
  on_ContainerStart : string → W → reply unit * W;
  on_CopyInfoSourcePath : string → W → reply string * W;
  on_TarResource : string → string → W → reply string * W;
  on_archive_Close : string → W → reply unit * W;
  on_CopyToContainer : string → string → string → W → reply unit * W;
  on_ContainerRemove : string → bool → W → reply unit * W;
  on_ContainerList : gset (string * string) → bool → W → reply (list Container) * W;
  on_VolumeList : gset (string * string) → W → reply (list Volume) * W;
  on_VolumeRemove : string → bool → W → reply unit * W;
  on_ContainerStop : string → Z → W → reply unit * W;
  on_ContainerExecCreate : string → dockertypes_ExecConfig → W → reply string * W;
  on_ContainerExecAttach : string → bool → bool → W → reply string * W;
  on_ContainerExecInspect : string → W → reply ExecInspect * W;
  on_time_Sleep : Z → W → reply unit * W;
  on_hresp_Close : string → W → reply unit * W;
  on_hresp_CloseWrite : string → W → reply unit * W;
  on_Conn_Write : string → string → W → reply Z * W
}.
Arguments on_ImageList {W}.
Arguments on_ImagePull {W}.
Arguments on_io_Copy {W}.
Arguments on_VolumeCreate {W}.
Arguments on_ContainerCreate {W}.
Arguments on_ContainerStart {W}.
Arguments on_CopyInfoSourcePath {W}.
Arguments on_TarResource {W}.
Arguments on_archive_Close {W}.
Arguments on_CopyToContainer {W}.
Arguments on_ContainerRemove {W}.
Arguments on_ContainerList {W}.
Arguments on_VolumeList {W}.
Arguments on_VolumeRemove {W}.
Arguments on_ContainerStop {W}.
Arguments on_ContainerExecCreate {W}.
Arguments on_ContainerExecAttach {W}.
Arguments on_ContainerExecInspect {W}.
Arguments on_time_Sleep {W}.
Arguments on_hresp_Close {W}.
Arguments on_hresp_CloseWrite {W}.
Arguments on_Conn_Write {W}.

(** ** The monad of driver operations *)

Section Monad.
Context {W : Type}.

(** From a world: how the operation ends, the world it leaves, and the
    calls it issued, oldest first. *)
Definition M (A : Type) : Type := W → outcome A * W * list Call.

Definition ret {A} (a : A) : M A := λ w, (Ok a, w, []).
Definition fail {A} (e : error) : M A := λ w, (Err e, w, []).
Definition panic {A} (msg : string) : M A := λ w, (Panic msg, w, []).

Definition bind {A B} (m : M A) (f : A → M B) : M B := λ w,
  match m w with
  | (Ok a, w1, t1) => let '(r, w2, t2) := f a w1 in (r, w2, t1 ++ t2)
  | (Err e, w1, t1) => (Err e, w1, t1)
  | (Panic msg, w1, t1) => (Panic msg, w1, t1)
  end.

(** Issue a call and hand its reply to the code. *)
Definition call {A} (c : Call) (f : W → reply A * W) : M (reply A) := λ w,
  let '(r, w1) := f w in (Ok r, w1, [c]).

Definition emit (c : Call) : M unit := λ w, (Ok tt, w, [c]).

(** [if err != nil { return nil, errors.WithStack(err) }]. *)
Definition check {A} (r : reply A) : M A :=
  match r with
  | Done a => ret a
  | Fail c => fail (WithStack c)
  end.

Definition try {A} (c : Call) (f : W → reply A * W) : M A :=
  bind (call c f) check.

Definition liftOutcome {A} (o : outcome A) : M A := λ w, (o, w, []).

Definition result {A} (x : outcome A * W * list Call) : outcome A := x.1.1.
Definition world {A} (x : outcome A * W * list Call) : W := x.1.2.
Definition calls {A} (x : outcome A * W * list Call) : list Call := x.2.
End Monad.

Notation "'let!' x ':=' m 'in' k" := (bind m (λ x, k))
  (at level 10, x pattern, m at level 100, k at level 200, only parsing).
Notation "'do!' m 'in' k" := (bind m (λ _, k))
  (at level 10, m at level 100, k at level 200, only parsing).

(** ** The driver *)

Section Driver.
Context {W : Type} (K : Constants) (L : Libs) (R : Runtime W).

(** The label set stamped on both volumes of a pod. *)
Definition volumeLabels (d : DockerDriver) (podID volumeName : string)
  : gmap string string :=
  <[volumeNameKey K := volumeName]>
    (<[podIDKey K := podID]>
       (<[executorIDKey K := executorID d]>
          (<[agolaLabelKey K := agolaLabelValue K]> ∅))).

Definition createProjectVolume (d : DockerDriver) (podID out : string) : M Volume :=
  let labels := volumeLabels d podID (projectVolumeName_const K) in
  try (VolumeCreate "local" labels) (on_VolumeCreate R "local" labels).

Definition registryAuthOf (registryConfig : option DockerConfig) (regName : string)
  : DockerConfigAuth :=
  match registryConfig with
  | Some rc =>
      match Auths rc !! regName with
      | Some regauth => regauth
      | None => zeroAuth
      end
  | None => zeroAuth
  end.

Definition fetchImage (d : DockerDriver) (image : string) (alwaysFetch : bool)
    (registryConfig : option DockerConfig) (out : string) : M unit :=
  do! emit (Enter_fetchImage image alwaysFetch) in
  let! regName := check (registry_GetRegistry L image) in
  let registryAuth := registryAuthOf registryConfig regName in
  let! buf := check (json_Marshal_auth L registryAuth) in
  let registryAuthEnc := base64_URLEncoding_EncodeToString L buf in
  let! tag := check (registry_GetImageTagOrDigest L image) in
  let args : gset (string * string) := {[ ("reference", image) ]} in
  let! img := try (ImageList args) (on_ImageList R args) in
  let exists_ := negb (bool_decide (length img = 0%nat)) in
  (* fetch only if forced, is latest tag or image doesn't exist *)
  if alwaysFetch || bool_decide (tag = "latest") || negb exists_ then
    let! reader := try (ImagePull image registryAuthEnc)
                       (on_ImagePull R image registryAuthEnc) in
    try (io_Copy out reader) (on_io_Copy R out reader)
  else ret tt.

Definition createToolboxVolume (d : DockerDriver) (podID out : string) : M Volume :=
  do! fetchImage d (initImage d) false (initDockerConfig d) out in
  let labels := volumeLabels d podID (toolboxVolumeName_const K) in
  let! toolboxVol := try (VolumeCreate "local" labels) (on_VolumeCreate R "local" labels) in
  let config :=
    {| Entrypoint := ["cat"]; cEnv := []; cWorkingDir := "";
       cImage := initImage d; cTty := true; cLabels := ∅ |} in
  let hostConfig :=
    {| Binds := [VolumeName toolboxVol +:+ ":" +:+ "/tmp/agola"];
       HostPrivileged := false; NetworkMode := ""; HostMounts := [] |} in
  let! containerID := try (ContainerCreate config hostConfig)
                          (on_ContainerCreate R config hostConfig) in
  do! try (ContainerStart containerID) (on_ContainerStart R containerID) in
  let! execPath :=
    match toolboxExecPath L (toolboxPath d) (arch d) with
    | Done p => ret p
    | Fail c => fail (ToolboxPathFailed (arch d) c)
    end in
  let! srcInfo := try (archive_CopyInfoSourcePath execPath)
                      (on_CopyInfoSourcePath R execPath) in
  let! srcArchive := try (archive_TarResource srcInfo "agola-toolbox")
                         (on_TarResource R srcInfo "agola-toolbox") in
  (* [defer srcArchive.Close()] runs on both ways out below *)
  let! copied := call (CopyToContainer containerID "/tmp/agola" srcArchive)
                      (on_CopyToContainer R containerID "/tmp/agola" srcArchive) in
  match copied with
  | Fail c =>
      let! _ := call (archive_Close srcArchive) (on_archive_Close R srcArchive) in
      fail (WithStack c)
  | Done _ =>
      (* ignore remove error *)
      let! _ := call (ContainerRemove containerID true)
                     (on_ContainerRemove R containerID true) in
      let! _ := call (archive_Close srcArchive) (on_archive_Close R srcArchive) in
      ret toolboxVol
  end.

(** [makeEnvSlice]; Go ranges over the map in an unspecified order. *)
Definition makeEnvSlice (env : gmap string string) : list string :=
  (λ kv : string * string, kv.1 +:+ "=" +:+ kv.2) <$> map_to_list env.

(** The loop of [createContainer] over the configured volumes:
    [None] is its [return nil, errors.Errorf("missing volume config")]. *)
Fixpoint appendVolumeMounts (vols : list VolumeConfig) (mounts : list Mount)
  : option (list Mount) :=
  match vols with
  | [] => Some mounts
  | vol :: rest =>
      match TmpFS vol with
      | Some tmpfs =>
          appendVolumeMounts rest
            (mounts ++ [ {| mType := TypeTmpfs; mSource := ""; mTarget := Path vol;
                            mReadOnly := false;
                            mTmpfsSizeBytes := Some (TmpFSSize tmpfs) |} ])
      | None => None
      end
  end.

Definition containerName (containerConfig : ContainerConfig) (index : nat) : string :=
  if bool_decide (Name containerConfig = "") && bool_decide (index = 0%nat)
  then mainContainerName K else Name containerConfig.

Definition containerLabels (d : DockerDriver) (podConfig : PodConfig)
    (index : nat) (name : string) : gmap string string :=
  <[containerNameKey K := name]>
    (<[containerIndexKey K := strconv_Itoa (Z.of_nat index)]>
       (<[taskIDKey K := pcTaskID podConfig]>
          (<[podIDKey K := pcID podConfig]>
             (<[executorIDKey K := executorID d]>
                (<[agolaLabelKey K := agolaLabelValue K]> ∅))))).

Definition podMounts (podConfig : PodConfig) (name : string)
    (toolboxVol projectVol : Volume) : list Mount :=
  if bool_decide (name ≠ "") then
    [ {| mType := TypeVolume; mSource := VolumeName toolboxVol;
         mTarget := InitVolumeDir podConfig; mReadOnly := true;
         mTmpfsSizeBytes := None |};
      {| mType := TypeVolume; mSource := VolumeName projectVol;
         mTarget := defaultProjectDir K; mReadOnly := false;
         mTmpfsSizeBytes := None |} ]
  else [].

Definition createContainer (d : DockerDriver) (index : nat) (podConfig : PodConfig)
    (maincontainerID : string) (toolboxVol projectVol : Volume) (out : string)
  : M string :=
  match Containers podConfig !! index with
  | None => panic indexOutOfRange
  | Some containerConfig =>
      (* by default always try to pull the image so we are sure only
         authorized users can fetch them *)
      do! fetchImage d (Image containerConfig) true (pcDockerConfig podConfig) out in
      let name := containerName containerConfig index in
      let labels := containerLabels d podConfig index name in
      let cliContainerConfig :=
        {| Entrypoint := Cmd containerConfig;
           cEnv := makeEnvSlice (Env containerConfig);
           cWorkingDir := WorkingDir containerConfig;
           cImage := Image containerConfig;
           cTty := true;
           cLabels := labels |} in
      let networkMode :=
        if bool_decide (index ≠ 0%nat)
        then "container:" +:+ maincontainerID   (* attach to maincontainer network *)
        else "" in
      let mounts := podMounts podConfig name toolboxVol projectVol in
      match appendVolumeMounts (Volumes containerConfig) mounts with
      | None => fail MissingVolumeConfig
      | Some mounts =>
          let cliHostConfig :=
            {| Binds := []; HostPrivileged := Privileged containerConfig;
               NetworkMode := networkMode; HostMounts := mounts |} in
          try (ContainerCreate cliContainerConfig cliHostConfig)
              (on_ContainerCreate R cliContainerConfig cliHostConfig)
      end
  end.

(** *** NewPod *)

Definition searchLabelsOf (d : DockerDriver) (podConfig : PodConfig)
  : gmap string string :=
  <[taskIDKey K := pcTaskID podConfig]>
    (<[podIDKey K := pcID podConfig]>
       (<[executorIDKey K := executorID d]>
          (<[agolaLabelKey K := agolaLabelValue K]> ∅))).

(** [args.Add("label", fmt.Sprintf("%s=%s", k, v))] for every label. *)
Definition labelFilters (m : gmap string string) : gset (string * string) :=
  list_to_set ((λ kv : string * string, ("label", kv.1 +:+ "=" +:+ kv.2))
                 <$> map_to_list m).

(** The creation loop [for cindex := range podConfig.Containers]; it
    carries [mainContainerID]. *)
Fixpoint startContainers (d : DockerDriver) (podConfig : PodConfig)
    (toolboxVol projectVol : Volume) (out : string)
    (cindexes : list nat) (mainContainerID : string) : M string :=
  match cindexes with
  | [] => ret mainContainerID
  | cindex :: rest =>
      let! containerID :=
        createContainer d cindex podConfig mainContainerID toolboxVol projectVol out in
      (* save the maincontainerid *)
      let mainContainerID :=
        if bool_decide (cindex = 0%nat) then containerID else mainContainerID in
      do! try (ContainerStart containerID) (on_ContainerStart R containerID) in
      startContainers d podConfig toolboxVol projectVol out rest mainContainerID
  end.

Definition appendContainer (pod : DockerPod) (dContainer : DockerContainer) : DockerPod :=
  {| id := id pod; labels := labels pod;
     containers := containers pod ++ [dContainer];
     containersMap := containersMap pod;
     toolboxVolumeName := toolboxVolumeName pod;
     projectVolumeName := projectVolumeName pod;
     podExecutorID := podExecutorID pod; initVolumeDir := initVolumeDir pod |}.

Definition setContainersMap (pod : DockerPod) (name : string)
    (dContainer : DockerContainer) : DockerPod :=
  {| id := id pod; labels := labels pod; containers := containers pod;
     containersMap := <[name := dContainer]> (containersMap pod);
     toolboxVolumeName := toolboxVolumeName pod;
     projectVolumeName := projectVolumeName pod;
     podExecutorID := podExecutorID pod; initVolumeDir := initVolumeDir pod |}.

Definition setContainers (pod : DockerPod) (cs : list DockerContainer) : DockerPod :=
  {| id := id pod; labels := labels pod; containers := cs;
     containersMap := containersMap pod;
     toolboxVolumeName := toolboxVolumeName pod;
     projectVolumeName := projectVolumeName pod;
     podExecutorID := podExecutorID pod; initVolumeDir := initVolumeDir pod |}.

Definition setLabels (pod : DockerPod) (podLabels : gmap string string) : DockerPod :=
  {| id := id pod; labels := Some podLabels; containers := containers pod;
     containersMap := containersMap pod;
     toolboxVolumeName := toolboxVolumeName pod;
     projectVolumeName := projectVolumeName pod;
     podExecutorID := podExecutorID pod; initVolumeDir := initVolumeDir pod |}.

Definition setToolboxVolumeName (pod : DockerPod) (name : string) : DockerPod :=
  {| id := id pod; labels := labels pod; containers := containers pod;
     containersMap := containersMap pod;
     toolboxVolumeName := name;
     projectVolumeName := projectVolumeName pod;
     podExecutorID := podExecutorID pod; initVolumeDir := initVolumeDir pod |}.

Definition setProjectVolumeName (pod : DockerPod) (name : string) : DockerPod :=
  {| id := id pod; labels := labels pod; containers := containers pod;
     containersMap := containersMap pod;
     toolboxVolumeName := toolboxVolumeName pod;
     projectVolumeName := name;
     podExecutorID := podExecutorID pod; initVolumeDir := initVolumeDir pod |}.

(** [pod.containers = append(pod.containers, dContainer)] followed by the
    registration of a non-empty [containerName] label, as both [NewPod]
    and [GetPods] do. *)
Definition addContainer (pod : DockerPod) (container : Container)
    (dContainer : DockerContainer) : DockerPod :=
  let pod := appendContainer pod dContainer in
  match Labels container !! containerNameKey K with
  | Some name =>
      if bool_decide (name ≠ "") then setContainersMap pod name dContainer else pod
  | None => pod
  end.

(** The re-discovery loop of [NewPod] over the listed containers. *)
Fixpoint discover (listed : list Container) (pod : DockerPod)
    (seenIndexes : gset Z) (count : nat) : outcome (DockerPod * nat) :=
  match listed with
  | [] => Ok (pod, count)
  | container :: rest =>
      match Labels container !! containerIndexKey K with
      | None => discover rest pod seenIndexes count            (* ignore container *)
      | Some cIndexStr =>
          match strconv_Atoi cIndexStr with
          | None => discover rest pod seenIndexes count        (* ignore container *)
          | Some cIndex =>
              if bool_decide (cIndex ∈ seenIndexes)
              then Err (DuplicateContainerIndex cIndex)
              else
                (* [sort.Sort] works on the mounts slice that the
                   stored container shares *)
                let dContainer :=
                  {| Index := cIndex; dcContainer := sortMounts container |} in
                discover rest (addContainer pod container dContainer)
                  ({[ cIndex ]} ∪ seenIndexes) (S count)
          end
      end
  end.

(** The tail of [NewPod] once the containers are listed: the
    discovery loop, the count check, the sort, and the registration of
    the first container under the empty name. *)
Definition assemblePod (pod : DockerPod) (listed : list Container)
  : outcome DockerPod :=
  match discover listed pod ∅ 0%nat with
  | Ok found =>
      let pod := found.1 in
      let count := found.2 in
      if bool_decide (count ≠ length listed)
      then Err (ExpectedContainers (length listed) count)
      else
        (* put the containers in the right order based on their container index *)
        let sorted := slices_SortFunc ContainersByIndexSortFunc (containers pod) in
        (* main container is the first one *)
        match sorted with
        | [] => Panic indexOutOfRange
        | first :: _ => Ok (setContainersMap (setContainers pod sorted) "" first)
        end
  | Err e => Err e
  | Panic msg => Panic msg
  end.

(** The re-discovery step of [NewPod]: list the containers that carry
    the pod's labels and build the pod from them. *)
Definition rediscover (d : DockerDriver) (podConfig : PodConfig)
    (toolboxVol projectVol : Volume) : M DockerPod :=
  let searchLabels := searchLabelsOf d podConfig in
  let args := labelFilters searchLabels in
  let! listed := try (ContainerList args false) (on_ContainerList R args false) in
  if bool_decide (length listed = 0%nat)
  then fail (NoContainerWithLabels searchLabels)
  else
    let pod :=
      {| id := pcID podConfig; labels := None; containers := [];
         containersMap := ∅;
         toolboxVolumeName := VolumeName toolboxVol;
         projectVolumeName := VolumeName projectVol;
         podExecutorID := executorID d;
         initVolumeDir := InitVolumeDir podConfig |} in
    liftOutcome (assemblePod pod listed).

(** The first part of [NewPod]: the two volumes, then every container
    created and started in declaration order. *)
Definition preparePod (d : DockerDriver) (podConfig : PodConfig) (out : string)
  : M (Volume * Volume) :=
  let! toolboxVol := createToolboxVolume d (pcID podConfig) out in
  let! projectVol := createProjectVolume d (pcID podConfig) out in
  let! _ := startContainers d podConfig toolboxVol projectVol out
              (seq 0 (length (Containers podConfig))) "" in
  ret (toolboxVol, projectVol).

Definition NewPod (d : DockerDriver) (podConfig : PodConfig) (out : string)
  : M DockerPod :=
  if bool_decide (length (Containers podConfig) = 0%nat)
  then fail EmptyContainerConfig
  else
    let! vols := preparePod d podConfig out in
    rediscover d podConfig vols.1 vols.2.

(** *** GetPods *)

(** The two guards that open each loop of [GetPods]: the object is
    skipped unless its [executorID] label is this driver's and it has a
    [podID] label. *)
Definition ownerPodID (d : DockerDriver) (objLabels : gmap string string)
  : option string :=
  match objLabels !! executorIDKey K with
  | Some executorID' =>
      if bool_decide (executorID' ≠ executorID d) then None
      else objLabels !! podIDKey K
  | None => None
  end.

Definition emptyPod (d : DockerDriver) (podID : string) : DockerPod :=
  {| id := podID; labels := None; containers := []; containersMap := ∅;
     toolboxVolumeName := ""; projectVolumeName := "";
     podExecutorID := executorID d;
     initVolumeDir := "" (* TODO(sgotti) initvolumeDir isn't set *) |}.

Fixpoint collectPods (d : DockerDriver) (listed : list Container)
    (podsMap : gmap string DockerPod) : gmap string DockerPod :=
  match listed with
  | [] => podsMap
  | container :: rest =>
      match ownerPodID d (Labels container) with
      | None => collectPods d rest podsMap                     (* skip container *)
      | Some podID =>
          match podsMap !! podID with
          | Some _ => collectPods d rest podsMap
          | None => collectPods d rest (<[podID := emptyPod d podID]> podsMap)
          end
      end
  end.

(** keep only labels starting with our prefix *)
Definition podLabelsOf (containerLabels : gmap string string) : gmap string string :=
  filter (λ kv : string * string,
            String.prefix (labelPrefix K) kv.1 = true ∧ kv.1 ≠ containerNameKey K)
         containerLabels.

(** The second loop.  A missing or unparseable index label deletes the
    pod from [podsMap] and the body goes on: [podsMap[podID]] is then
    the nil pointer, and [pod.containers] dereferences it. *)
Fixpoint fillPods (d : DockerDriver) (listed : list Container)
    (podsMap : gmap string DockerPod) : outcome (gmap string DockerPod) :=
  match listed with
  | [] => Ok podsMap
  | container :: rest =>
      match ownerPodID d (Labels container) with
      | None => fillPods d rest podsMap                        (* skip container *)
      | Some podID =>
          let found := Labels container !! containerIndexKey K in
          let cIndexStr := default "" found in
          let podsMap :=
            if bool_decide (found = None) then delete podID podsMap else podsMap in
          let parsed := strconv_Atoi cIndexStr in
          let cIndex := default 0 parsed in
          let podsMap :=
            if bool_decide (parsed = None) then delete podID podsMap else podsMap in
          match podsMap !! podID with
          | None => Panic nilDereference
          | Some pod =>
              let dContainer :=
                {| Index := cIndex; dcContainer := sortMounts container |} in
              let pod := addContainer pod container dContainer in
              (* add labels from the container with index 0 *)
              let pod :=
                if bool_decide (cIndex = 0)
                then setLabels pod (podLabelsOf (Labels container)) else pod in
              fillPods d rest (<[podID := pod]> podsMap)
          end
      end
  end.

Fixpoint attachVolumes (d : DockerDriver) (volumes : list Volume)
    (podsMap : gmap string DockerPod) : gmap string DockerPod :=
  match volumes with
  | [] => podsMap
  | vol :: rest =>
      match ownerPodID d (VolumeLabels vol) with
      | None => attachVolumes d rest podsMap                   (* skip vol *)
      | Some podID =>
          match podsMap !! podID with
          | None => attachVolumes d rest podsMap               (* skip vol *)
          | Some pod =>
              let pod :=
                match VolumeLabels vol !! volumeNameKey K with
                | Some name =>
                    if bool_decide (name = toolboxVolumeName_const K)
                    then setToolboxVolumeName pod (VolumeName vol)
                    else if bool_decide (name = projectVolumeName_const K)
                    then setProjectVolumeName pod (VolumeName vol)
                    else pod
                | None => pod
                end in
              attachVolumes d rest (<[podID := pod]> podsMap)
          end
      end
  end.

(** Go ranges over [podsMap] in an unspecified order; the model takes
    the order of [map_to_list]. *)
Definition sortedPods (podsMap : gmap string DockerPod) : list DockerPod :=
  (λ kp : string * DockerPod,
     setContainers kp.2 (slices_SortFunc ContainersByIndexSortFunc (containers kp.2)))
    <$> map_to_list podsMap.

(** What [GetPods] makes of the listed containers and volumes. *)
Definition groupPods (d : DockerDriver) (listed : list Container)
    (volumes : list Volume) : outcome (list DockerPod) :=
  match fillPods d listed (collectPods d listed ∅) with
  | Ok podsMap => Ok (sortedPods (attachVolumes d volumes podsMap))
  | Err e => Err e
  | Panic msg => Panic msg
  end.

Definition GetPods (d : DockerDriver) (all : bool) : M (list DockerPod) :=
  let args : gset (string * string) := ∅ in
  let! listed := try (ContainerList args all) (on_ContainerList R args all) in
  let! volumes := try (VolumeList args) (on_VolumeList R args) in
  liftOutcome (groupPods d listed volumes).

(** *** The pod's methods *)

Definition DockerPod_ID (dp : DockerPod) : string := id dp.
Definition DockerPod_ExecutorID (dp : DockerPod) : string := podExecutorID dp.

(** A lookup in a nil map gives the zero value. *)
Definition DockerPod_TaskID (dp : DockerPod) : string :=
  match labels dp with
  | Some m => default "" (m !! taskIDKey K)
  | None => ""
  end.

Definition appendErr {A} (errs : list cause) (r : reply A) : list cause :=
  match r with
  | Done _ => errs
  | Fail err => errs ++ [err]
  end.

Fixpoint stopContainers (cs : list DockerContainer) (errs : list cause)
  : M (list cause) :=
  match cs with
  | [] => ret errs
  | c :: rest =>
      let! r := call (ContainerStop (ID (dcContainer c)) 1)
                     (on_ContainerStop R (ID (dcContainer c)) 1) in
      stopContainers rest (appendErr errs r)
  end.

Definition Stop (dp : DockerPod) : M unit :=
  let! errs := stopContainers (containers dp) [] in
  if bool_decide (length errs ≠ 0%nat) then fail (StopErrors errs) else ret tt.

Fixpoint removeContainers (cs : list DockerContainer) (errs : list cause)
  : M (list cause) :=
  match cs with
  | [] => ret errs
  | c :: rest =>
      let! r := call (ContainerRemove (ID (dcContainer c)) true)
                     (on_ContainerRemove R (ID (dcContainer c)) true) in
      removeContainers rest (appendErr errs r)
  end.

Definition removeVolume (name : string) (errs : list cause) : M (list cause) :=
  if bool_decide (name ≠ "") then
    let! r := call (VolumeRemove name true) (on_VolumeRemove R name true) in
    ret (appendErr errs r)
  else ret errs.

Definition Remove (dp : DockerPod) : M unit :=
  let! errs := removeContainers (containers dp) [] in
  let! errs := removeVolume (toolboxVolumeName dp) errs in
  let! errs := removeVolume (projectVolumeName dp) errs in
  if bool_decide (length errs ≠ 0%nat) then fail (RemoveErrors errs) else ret tt.

(** *** Exec sessions *)

(** The command [Exec] hands to the runtime. *)
Definition toolboxCommand (dp : DockerPod) (execConfig : ExecConfig) (envj : string)
  : list string :=
  [ filepath_Join L (initVolumeDir dp) "agola-toolbox"; "exec"; "-e"; envj;
    "-w"; ecWorkingDir execConfig; "--" ] ++ ecCmd execConfig.

(** [Exec] up to the session it returns.  The goroutine it starts
    copies the attached stream to the sinks in the background and then
    sends the copy's error on [endCh]; [Wait] below receives it. *)
Definition Exec (dp : DockerPod) (execConfig : ExecConfig) : M DockerContainerExec :=
  let! envj := check (json_Marshal_env L (ecEnv execConfig)) in
  let cmd := toolboxCommand dp execConfig envj in
  let dockerExecConfig :=
    {| xCmd := cmd;
       xTty := ecTty execConfig;
       xAttachStdin := ecAttachStdin execConfig;
       xAttachStdout := bool_decide (ecStdout execConfig ≠ None);
       xAttachStderr := bool_decide (ecStderr execConfig ≠ None);
       xUser := ecUser execConfig;
       xDetach := false |} in
  match containersMap dp !! ecContainer execConfig with
  | None => fail (ContainerNotFound (ecContainer execConfig))
  | Some targetContainer =>
      let! responseID :=
        try (ContainerExecCreate (ID (dcContainer targetContainer)) dockerExecConfig)
            (on_ContainerExecCreate R (ID (dcContainer targetContainer))
               dockerExecConfig) in
      let! conn :=
        try (ContainerExecAttach responseID (xDetach dockerExecConfig)
               (xTty dockerExecConfig))
            (on_ContainerExecAttach R responseID (xDetach dockerExecConfig)
               (xTty dockerExecConfig)) in
      ret {| execID := responseID; hresp := conn |}
  end.

(** Which case of the [select] in [Wait] fires. *)
Inductive selected :=
| ctx_Done (err : cause)
| endCh_received (copyErr : option cause).

(** [ctxErr] is [ctx.Err()] ([None] while the context is live);
    [endCh] is the value the copying goroutine has ready to send
    ([None] while it is still streaming).  With both ready Go picks one
    at random ([pick]); with neither the [select] blocks. *)
Definition select (ctxErr : option cause) (endCh : option (option cause))
    (pick : bool) : option selected :=
  match ctxErr, endCh with
  | Some err, None => Some (ctx_Done err)
  | None, Some copyErr => Some (endCh_received copyErr)
  | Some err, Some copyErr =>
      Some (if pick then ctx_Done err else endCh_received copyErr)
  | None, None => None
  end.

(** The polling loop of [Wait]; [None] when the exec is still running
    after [fuel] inspections. *)
Fixpoint inspectLoop (fuel : nat) (e : DockerContainerExec)
  : M (option (Z * option error)) :=
  match fuel with
  | O => ret None
  | S fuel =>
      let! r := call (ContainerExecInspect (execID e))
                     (on_ContainerExecInspect R (execID e)) in
      match r with
      | Fail err => ret (Some (-1, Some (WithStack err)))
      | Done resp =>
          if negb (Running resp) then
            let! _ := call (hresp_Close (hresp e)) (on_hresp_Close R (hresp e)) in
            ret (Some (ExitCode resp, None))
          else
            let! _ := call (time_Sleep 500) (on_time_Sleep R 500) in
            inspectLoop fuel e
      end
  end.

(** [Wait] returns an exit code and an error; [None] when it has not
    returned: the [select] blocks, or the polling outlasts [fuel]. *)
Definition Wait (e : DockerContainerExec) (ctxErr : option cause)
    (endCh : option (option cause)) (pick : bool) (fuel : nat)
  : M (option (Z * option error)) :=
  match select ctxErr endCh pick with
  | None => ret None
  | Some (ctx_Done err) => ret (Some (0, Some (WithStack err)))
  | Some (endCh_received _) =>
      (* ignore error, we'll use the exit code of the exec *)
      inspectLoop fuel e
  end.

Definition Stdin_Write (e : DockerContainerExec) (p : string) : M Z :=
  try (Conn_Write (hresp e) p) (on_Conn_Write R (hresp e) p).

Definition Stdin_Close (e : DockerContainerExec) : M unit :=
  try (hresp_CloseWrite (hresp e)) (on_hresp_CloseWrite R (hresp e)).
End Driver.

(** ** Vocabulary of the properties *)

Section Vocabulary.
Context (K : Constants).


(** The index a listed container declares, when its label is there
    and parses. *)
Definition indexOf (c : Container) : option Z :=
  Labels c !! containerIndexKey K ≫= strconv_Atoi.

(** The containers the discovery loop takes from a listing: those
    whose index label parses, in listing order. *)
Definition accepted (listed : list Container) : list DockerContainer :=
  omap (λ c, (λ z, {| Index := z; dcContainer := sortMounts c |}) <$> indexOf c)
       listed.

(** What a volume name recorded in a pod comes from. *)
Definition recordedFrom (d : DockerDriver) (volumes : list Volume) (slot : string)
    (podID recorded : string) : Prop :=
  recorded ≠ "" →
  ∃ vol, vol ∈ volumes ∧
         ownerPodID K d (VolumeLabels vol) = Some podID ∧
         VolumeLabels vol !! volumeNameKey K = Some slot ∧
         VolumeName vol = recorded.

Definition volumesRecorded (d : DockerDriver) (volumes : list Volume)
    (podID : string) (pod : DockerPod) : Prop :=
  id pod = podID ∧
  recordedFrom d volumes (toolboxVolumeName_const K) podID (toolboxVolumeName pod) ∧
  recordedFrom d volumes (projectVolumeName_const K) podID (projectVolumeName pod).
End Vocabulary.

(** A call that closes the attached connection [conn]; a call that pulls
    an image. *)
Definition closes (conn : string) (c : Call) : Prop := c = hresp_Close conn.



(** ** A concrete runtime

    A runtime that answers every call successfully with fixed data: the
    images [imgs], containers [listed] and volumes [vols] it lists are
    given; a created container is named after its index label, a created
    volume after its name label. *)
Module Sample.
(** Modelled from the spec: the constants under the names of the
    specification's label table. *)
Definition specConstants : Constants :=
  {| labelPrefix := "";
     agolaLabelKey := "agola";
     agolaLabelValue := "true";
     executorIDKey := "executorID";
     podIDKey := "podID";
     taskIDKey := "taskID";
     containerIndexKey := "containerIndex";
     containerNameKey := "containerName";
     volumeNameKey := "volumeName";
     toolboxVolumeName_const := "toolbox";
     projectVolumeName_const := "project";
     mainContainerName := "main";
     defaultProjectDir := "/project" |}.

(** Stand-ins for the library functions: every image reference
    resolves to the registry [docker.io] and the tag [tag]. *)
Definition libs (tag : string) : Libs :=
  {| json_Marshal_auth := λ _, Done "{}";
     json_Marshal_env := λ _, Done "{}";
     base64_URLEncoding_EncodeToString := λ s, s;
     filepath_Join := λ a b, a +:+ "/" +:+ b;
     registry_GetRegistry := λ _, Done "docker.io";
     registry_GetImageTagOrDigest := λ _, Done tag;
     toolboxExecPath := λ p a, Done (p +:+ "/agola-toolbox-" +:+ a) |}.

Definition runtime (imgs : list ImageSummary) (listed : list Container)
    (vols : list Volume) : Runtime unit :=
  {| on_ImageList := λ _ w, (Done imgs, w);
     on_ImagePull := λ _ _ w, (Done "pulled", w);
     on_io_Copy := λ _ _ w, (Done tt, w);
     on_VolumeCreate := λ _ l w,
       (Done {| VolumeName := "vol-" +:+ default "" (l !! "volumeName");
                VolumeLabels := l |}, w);
     on_ContainerCreate := λ c _ w,
       (Done ("c" +:+ default "" (cLabels c !! "containerIndex")), w);
     on_ContainerStart := λ _ w, (Done tt, w);
     on_CopyInfoSourcePath := λ p w, (Done p, w);
     on_TarResource := λ p _ w, (Done p, w);
     on_archive_Close := λ _ w, (Done tt, w);
     on_CopyToContainer := λ _ _ _ w, (Done tt, w);
     on_ContainerRemove := λ _ _ w, (Done tt, w);
     on_ContainerList := λ _ _ w, (Done listed, w);
     on_VolumeList := λ _ w, (Done vols, w);
     on_VolumeRemove := λ _ _ w, (Done tt, w);
     on_ContainerStop := λ _ _ w, (Done tt, w);
     on_ContainerExecCreate := λ _ _ w, (Done "exec-1", w);
     on_ContainerExecAttach := λ _ _ _ w, (Done "conn-1", w);
     on_ContainerExecInspect := λ _ w, (Done {| Running := false; ExitCode := 0 |}, w);
     on_time_Sleep := λ _ w, (Done tt, w);
     on_hresp_Close := λ _ w, (Done tt, w);
     on_hresp_CloseWrite := λ _ w, (Done tt, w);
     on_Conn_Write := λ _ _ w, (Done 0, w) |}.

Definition driver : DockerDriver :=
  {| toolboxPath := "/bin"; initImage := "busybox:1.36"; initDockerConfig := None;
     executorID := "e1"; arch := "amd64"; network := "" |}.

Definition containerConfig (image name : string) : ContainerConfig :=
  {| Cmd := ["sh"]; Env := ∅; WorkingDir := ""; Image := image; User := "";
     Privileged := false; Name := name; Volumes := [] |}.

Definition podConfig (cs : list ContainerConfig) : PodConfig :=
  {| pcID := "p1"; pcTaskID := "t1"; Containers := cs;
     InitVolumeDir := "/mnt/agola"; pcDockerConfig := None |}.

(** A listed container of pod [podID] with index label [index] and name
    label [name]. *)
Definition listedContainer (cid podID index name : string) : Container :=
  {| ID := cid;
     Labels := <["containerName" := name]>
                 (<["containerIndex" := index]>
                    (<["taskID" := "t1"]>
                       (<["podID" := podID]>
                          (<["executorID" := "e1"]> (<["agola" := "true"]> ∅)))));
     Mounts := [] |}.

(** A listed container of this executor and of pod [podID] that
    carries no index label. *)
Definition unindexedContainer (cid podID : string) : Container :=
  {| ID := cid;
     Labels := <["podID" := podID]>
                 (<["executorID" := "e1"]> (<["agola" := "true"]> ∅));
     Mounts := [] |}.



Definition execConfig (target : string) (cmd : list string) : ExecConfig :=
  {| ecContainer := target; ecCmd := cmd; ecEnv := ∅;
     ecWorkingDir := "/src"; ecUser := ""; ecAttachStdin := false;
     ecTty := false; ecStdout := Some "buf"; ecStderr := None |}.

(** The network modes of the containers created in a run. *)
Definition networkModes (cs : list Call) : list string :=
  omap (λ c, match c with
             | ContainerCreate _ hostConfig => Some (NetworkMode hostConfig)
             | _ => None
             end) cs.
End Sample.

(** ** Runs in which nothing fails, and runs in which something does *)

(** The libraries resolve every image reference, encode every
    credential and find the toolbox for every architecture. *)
Definition resolving (L : Libs) : Prop :=
  (∀ image, ∃ reg, registry_GetRegistry L image = Done reg) ∧
  (∀ auth, ∃ buf, json_Marshal_auth L auth = Done buf) ∧
  (∀ image, ∃ tag, registry_GetImageTagOrDigest L image = Done tag) ∧
  (∀ path a, ∃ execPath, toolboxExecPath L path a = Done execPath).

(** The runtime answers every call that the creation of a pod issues. *)
Definition obliging {W} (R : Runtime W) : Prop :=
  (∀ args w, ∃ imgs, (on_ImageList R args w).1 = Done imgs) ∧
  (∀ image auth w, ∃ reader, (on_ImagePull R image auth w).1 = Done reader) ∧
  (∀ out reader w, ∃ u, (on_io_Copy R out reader w).1 = Done u) ∧
  (∀ drv lbls w, ∃ vol, (on_VolumeCreate R drv lbls w).1 = Done vol) ∧
  (∀ config hostConfig w, ∃ cid, (on_ContainerCreate R config hostConfig w).1 = Done cid) ∧
  (∀ cid w, ∃ u, (on_ContainerStart R cid w).1 = Done u) ∧
  (∀ path w, ∃ info, (on_CopyInfoSourcePath R path w).1 = Done info) ∧
  (∀ info name w, ∃ tar, (on_TarResource R info name w).1 = Done tar) ∧
  (∀ cid dst tar w, ∃ u, (on_CopyToContainer R cid dst tar w).1 = Done u).

(** Every volume entry of the container is a tmpfs volume. *)
Definition tmpfsOnly (containerConfig : ContainerConfig) : Prop :=
  ∀ vol, vol ∈ Volumes containerConfig → TmpFS vol ≠ None.

(** Modelled from the spec: the code has no error kinds; of the
    driver's errors the specification files these two under
    [BadInput], the kind for a configuration the caller got wrong. *)
Definition badInput (e : error) : bool :=
  match e with
  | EmptyContainerConfig | MissingVolumeConfig => true
  | _ => false
  end.

Module Faulty.
(** Libraries in which no image reference resolves to a registry. *)
Definition libs (tag : string) : Libs :=
  {| json_Marshal_auth := json_Marshal_auth (Sample.libs tag);
     json_Marshal_env := json_Marshal_env (Sample.libs tag);
     base64_URLEncoding_EncodeToString :=
       base64_URLEncoding_EncodeToString (Sample.libs tag);
     filepath_Join := filepath_Join (Sample.libs tag);
     registry_GetRegistry := λ _, Fail (foreign "invalid reference format");
     registry_GetImageTagOrDigest := registry_GetImageTagOrDigest (Sample.libs tag);
     toolboxExecPath := toolboxExecPath (Sample.libs tag) |}.

(** A runtime that refuses to create volumes and answers every other
    call like [Sample.runtime]. *)
Definition runtime (imgs : list ImageSummary) (listed : list Container)
    (vols : list Volume) : Runtime unit :=
  let R := Sample.runtime imgs listed vols in
  {| on_ImageList := on_ImageList R;
     on_ImagePull := on_ImagePull R;
     on_io_Copy := on_io_Copy R;
     on_VolumeCreate := λ _ _ w, (Fail (foreign "no space left on device"), w);
     on_ContainerCreate := on_ContainerCreate R;
     on_ContainerStart := on_ContainerStart R;
     on_CopyInfoSourcePath := on_CopyInfoSourcePath R;
     on_TarResource := on_TarResource R;
     on_archive_Close := on_archive_Close R;
     on_CopyToContainer := on_CopyToContainer R;
     on_ContainerRemove := on_ContainerRemove R;
     on_ContainerList := on_ContainerList R;
     on_VolumeList := on_VolumeList R;
     on_VolumeRemove := on_VolumeRemove R;
     on_ContainerStop := on_ContainerStop R;
     on_ContainerExecCreate := on_ContainerExecCreate R;
     on_ContainerExecAttach := on_ContainerExecAttach R;
     on_ContainerExecInspect := on_ContainerExecInspect R;
     on_time_Sleep := on_time_Sleep R;
     on_hresp_Close := on_hresp_Close R;
     on_hresp_CloseWrite := on_hresp_CloseWrite R;
     on_Conn_Write := on_Conn_Write R |}.
End Faulty.

From Stdlib Require Import DecimalPos.

(** ** Further vocabulary *)

(** The replies a sequence of runtime calls gets when the world is
    threaded through them, and the failures among replies. *)
Fixpoint threaded {W A} (steps : list (W → reply A * W)) (w : W) : list (reply A) :=
  match steps with
  | [] => []
  | step :: rest => (step w).1 :: threaded rest (step w).2
  end.

Definition failuresOf {A} (replies : list (reply A)) : list cause :=
  omap (λ r, match r with
             | Fail err => Some err
             | Done _ => None
             end) replies.

(** The runtime steps [Stop] and [Remove] take for a pod. *)
Definition stopSteps {W} (R : Runtime W) (dp : DockerPod) : list (W → reply unit * W) :=
  (λ c, on_ContainerStop R (ID (dcContainer c)) 1) <$> containers dp.

Definition removeSteps {W} (R : Runtime W) (dp : DockerPod) : list (W → reply unit * W) :=
  ((λ c, on_ContainerRemove R (ID (dcContainer c)) true) <$> containers dp)
  ++ (if decide (toolboxVolumeName dp = "") then []
      else [on_VolumeRemove R (toolboxVolumeName dp) true])
  ++ (if decide (projectVolumeName dp = "") then []
      else [on_VolumeRemove R (projectVolumeName dp) true]).

(** What ends a run: the errors collected, under the constructor of the
    operation, or success when there are none. *)
Definition aggregate (mk : list cause → error) (errs : list cause) : outcome unit :=
  match errs with
  | [] => Ok tt
  | _ => Err (mk errs)
  end.

(** The world a sequence of runtime calls leaves. *)
Fixpoint after {W A} (steps : list (W → reply A * W)) (w : W) : W :=
  match steps with
  | [] => w
  | step :: rest => after rest (step w).2
  end.

(** [k] rounds of the polling loop of [Wait] that found the exec
    running: an inspection and a sleep of 500 ms each. *)
Definition pollRounds (e : DockerContainerExec) (k : nat) : list Call :=
  concat (replicate k [ContainerExecInspect (execID e); time_Sleep 500]).

(** The number a sequence of decimal digits denotes, most significant
    digit first, on top of [acc]. *)
Fixpoint uintValue (d : Decimal.uint) (acc : Z) : Z :=
  match d with
  | Decimal.Nil => acc
  | Decimal.D0 d => uintValue d (10 * acc)
  | Decimal.D1 d => uintValue d (10 * acc + 1)
  | Decimal.D2 d => uintValue d (10 * acc + 2)
  | Decimal.D3 d => uintValue d (10 * acc + 3)
  | Decimal.D4 d => uintValue d (10 * acc + 4)
  | Decimal.D5 d => uintValue d (10 * acc + 5)
  | Decimal.D6 d => uintValue d (10 * acc + 6)
  | Decimal.D7 d => uintValue d (10 * acc + 7)
  | Decimal.D8 d => uintValue d (10 * acc + 8)
  | Decimal.D9 d => uintValue d (10 * acc + 9)
  end.

(** The range of Go's 64-bit [int]. *)
Definition inInt (z : Z) : Prop := - 2 ^ 63 <= z <= 2 ^ 63 - 1.

(** The tmpfs mounts [createContainer] makes of the configured volumes. *)
Definition tmpfsMounts (vols : list VolumeConfig) : list Mount :=
  omap (λ vol,
          (λ tmpfs, {| mType := TypeTmpfs; mSource := ""; mTarget := Path vol;
                       mReadOnly := false;
                       mTmpfsSizeBytes := Some (TmpFSSize tmpfs) |}) <$> TmpFS vol)
       vols.

(** Kinds of calls: those of [fetchImage]; those that tear a pod's
    resources down (stopping a container, removing a volume); the removal
    of a container. *)
Definition fetchCall (c : Call) : bool :=
  match c with
  | Enter_fetchImage _ _ | ImageList _ | ImagePull _ _ | io_Copy _ _ => true
  | _ => false
  end.

Definition teardownCall (c : Call) : bool :=
  match c with
  | VolumeRemove _ _ | ContainerStop _ _ => true
  | _ => false
  end.

Definition containerRemoval (c : Call) : bool :=
  match c with
  | ContainerRemove _ _ => true
  | _ => false
  end.

(** The label keys of the driver are pairwise different. *)
Definition distinctKeys (K : Constants) : Prop :=
  NoDup [agolaLabelKey K; executorIDKey K; podIDKey K; taskIDKey K;
         containerIndexKey K; containerNameKey K].

(** Calls that neither tear anything down nor remove a container. *)
Definition keeps (c : Call) : Prop := teardownCall c = false ∧ containerRemoval c = false.

(** What one round of the second loop of [GetPods] makes of the pod of a
    container whose index label parsed as [z]. *)
Definition stepPod (K : Constants) (pod : DockerPod) (c : Container) (z : Z) : DockerPod :=
  let pod := addContainer K pod c {| Index := z; dcContainer := sortMounts c |} in
  if bool_decide (z = 0) then setLabels pod (podLabelsOf K (Labels c)) else pod.

(** A pod under construction only gains containers and names. *)
Definition grows (pod pod' : DockerPod) : Prop :=
  containers pod `prefix_of` containers pod' ∧
  dom (containersMap pod) ⊆ dom (containersMap pod').

(** A listed container belongs to this driver's pod [podID] and declares
    the index of the pod member [dc], which holds it with its mounts
    sorted. *)
Definition memberOf (K : Constants) (d : DockerDriver) (listed : list Container)
    (podID : string) (dc : DockerContainer) : Prop :=
  ∃ c, c ∈ listed ∧
       ownerPodID K d (Labels c) = Some podID ∧
       indexOf K c = Some (Index dc) ∧
       dcContainer dc = sortMounts c.

(** Two pods that differ at most in their recorded volume names. *)
Definition sameMembers (pod pod' : DockerPod) : Prop :=
  id pod' = id pod ∧ labels pod' = labels pod ∧
  containers pod' = containers pod ∧ containersMap pod' = containersMap pod ∧
  podExecutorID pod' = podExecutorID pod ∧ initVolumeDir pod' = initVolumeDir pod.

(** What holds of every pod while [GetPods] builds it from the listing
    [listed], under the key [podID] of its map. *)
Definition rehydrated (K : Constants) (d : DockerDriver) (listed : list Container)
    (podID : string) (pod : DockerPod) : Prop :=
  id pod = podID ∧
  podExecutorID pod = executorID d ∧
  initVolumeDir pod = "" ∧
  (∀ dc, dc ∈ containers pod → memberOf K d listed podID dc) ∧
  (∀ name dc, containersMap pod !! name = Some dc →
              name ≠ "" ∧ dc ∈ containers pod ∧
              Labels (dcContainer dc) !! containerNameKey K = Some name) ∧
  (∀ m, labels pod = Some m →
        ∃ dc, dc ∈ containers pod ∧ Index dc = 0 ∧
              m = podLabelsOf K (Labels (dcContainer dc))) ∧
  (labels pod = None → ∀ dc, dc ∈ containers pod → Index dc ≠ 0).

(** ** The [util] errors

    The error values of package [util] that follows the driver in the
    same source file.  A Go [error] that may be nil is an
    [option errorValue]. *)

Module util.

(** [type ErrorKind int] with its five constants; any other integer is
    a value of the type as well. *)
Definition ErrorKind := Z.
Definition ErrBadRequest : ErrorKind := 0.
Definition ErrNotExist : ErrorKind := 1.
Definition ErrForbidden : ErrorKind := 2.
Definition ErrUnauthorized : ErrorKind := 3.
Definition ErrInternal : ErrorKind := 4.

Definition ErrorKind_String (k : ErrorKind) : string :=
  if bool_decide (k = ErrBadRequest) then "badrequest"
  else if bool_decide (k = ErrNotExist) then "notexist"
  else if bool_decide (k = ErrForbidden) then "forbidden"
  else if bool_decide (k = ErrUnauthorized) then "unauthorized"
  else if bool_decide (k = ErrInternal) then "internal"
  else "unknown".

(** [WrapperError]: the wrapped error, which may be nil, and the
    message.  The stack is read by [StackTrace] alone and is left out. *)
Record WrapperError (E : Type) := {
  err : option E;
  msg : string;
}.
Arguments err {E} _.
Arguments msg {E} _.

(** [APIError]; the embedded [*WrapperError] is nil until [NewAPIError]
    sets it. *)
Record APIError_of (E : Type) := {
  wrapper : option (WrapperError E);
  Kind : ErrorKind;
  Code : string;
  Message : string;
}.
Arguments wrapper {E} _.
Arguments Kind {E} _.
Arguments Code {E} _.
Arguments Message {E} _.

Record RemoteError := {
  RemoteKind : ErrorKind;
  RemoteCode : string;
  RemoteMessage : string;
}.

(** A non-nil error value: one of this package's three error types, or
    an error of another package, known by its text and by what its
    [Unwrap] returns ([inner] is [None] also when it has no [Unwrap]). *)
Inductive errorValue :=
| Foreign (text : string) (inner : option errorValue)
| ErrorsValue (Errs : list errorValue)
| APIErrorValue (aerr : APIError_of errorValue)
| RemoteErrorValue (rerr : RemoteError).

Definition APIError := APIError_of errorValue.

(** The result of a search that may hit a nil pointer. *)
Inductive search (A : Type) :=
| Found (a : A)
| Missing
| NilPanic.
Arguments Found {A} _.
Arguments Missing {A}.
Arguments NilPanic {A}.

Definition WrapperError_Unwrap {E} (w : WrapperError E) : option E := err w.

Section Constructors.
(** [fmt.Sprintf(format)] with no further argument, as [NewAPIError]
    calls [NewWrapperError]. *)
Variable fmt_Sprintf : string → string.

Definition NewWrapperError {E} (e : option E) (format : string) : WrapperError E :=
  {| err := e; msg := fmt_Sprintf format |}.

Definition APIErrorOption := APIError → APIError.

Definition WithCode (code : string) : APIErrorOption :=
  λ e, {| wrapper := wrapper e; Kind := Kind e; Code := code; Message := Message e |}.

Definition WithMessage (message : string) : APIErrorOption :=
  λ e, {| wrapper := wrapper e; Kind := Kind e; Code := Code e; Message := message |}.

Definition apiErrorText (aerr : APIError) (kind : ErrorKind) : string :=
  let msg := "apiError (kind: " +:+ ErrorKind_String kind in
  let msg := if bool_decide (Code aerr ≠ "") then msg +:+ ", code: " +:+ Code aerr else msg in
  let msg :=
    if bool_decide (Message aerr ≠ "") then msg +:+ ", message: " +:+ Message aerr else msg in
  msg +:+ ")".

Definition NewAPIError (kind : ErrorKind) (e : option errorValue)
    (options : list APIErrorOption) : errorValue :=
  let aerr :=
    foldl (λ aerr opt, opt aerr)
      {| wrapper := None; Kind := kind; Code := ""; Message := "" |} options in
  APIErrorValue
    {| wrapper := Some (NewWrapperError e (apiErrorText aerr kind));
       Kind := Kind aerr; Code := Code aerr; Message := Message aerr |}.
End Constructors.

Definition NewRemoteError (kind : ErrorKind) (code message : string) : errorValue :=
  RemoteErrorValue {| RemoteKind := kind; RemoteCode := code; RemoteMessage := message |}.

(** [errors.As(err, &aerr)] for a target of type [*APIError]: the first
    error of that type on the chain that [Unwrap] spans. *)
Fixpoint errors_As_APIError (e : errorValue) : search APIError :=
  match e with
  | APIErrorValue aerr => Found aerr
  | Foreign _ inner =>
      match inner with
      | Some e' => errors_As_APIError e'
      | None => Missing
      end
  | ErrorsValue _ => Missing
  | RemoteErrorValue _ => Missing
  end.

(** [errors.As(err, &rerr)] for a target of type [*RemoteError].  The
    [Unwrap] of an [*APIError] is the one of its embedded
    [*WrapperError] and reads through that pointer. *)
Fixpoint errors_As_RemoteError (e : errorValue) : search RemoteError :=
  match e with
  | RemoteErrorValue rerr => Found rerr
  | Foreign _ inner =>
      match inner with
      | Some e' => errors_As_RemoteError e'
      | None => Missing
      end
  | ErrorsValue _ => Missing
  | APIErrorValue aerr =>
      match wrapper aerr with
      | None => NilPanic
      | Some w =>
          match WrapperError_Unwrap w with
          | Some e' => errors_As_RemoteError e'
          | None => Missing
          end
      end
  end.

Definition AsAPIError (e : option errorValue) : search APIError :=
  match e with
  | Some e => errors_As_APIError e
  | None => Missing
  end.

Definition APIErrorIs (e : option errorValue) (kind : ErrorKind) : search bool :=
  match AsAPIError e with
  | Found aerr => Found (bool_decide (Kind aerr = kind))
  | Missing => Found false
  | NilPanic => NilPanic
  end.

Definition AsRemoteError (e : option errorValue) : search RemoteError :=
  match e with
  | Some e => errors_As_RemoteError e
  | None => Missing
  end.

Definition RemoteErrorIs (e : option errorValue) (kind : ErrorKind) : search bool :=
  match AsRemoteError e with
  | Found rerr => Found (bool_decide (RemoteKind rerr = kind))
  | Missing => Found false
  | NilPanic => NilPanic
  end.

Definition KindFromRemoteError (e : option errorValue) : search ErrorKind :=
  match AsRemoteError e with
  | Found rerr => Found (RemoteKind rerr)
  | Missing => Found ErrInternal
  | NilPanic => NilPanic
  end.

(** The error values this package's constructors make of errors of other
    packages: every [*APIError] on the chain has its wrapper set. *)
Fixpoint constructed (e : errorValue) : Prop :=
  match e with
  | Foreign _ inner =>
      match inner with
      | Some e' => constructed e'
      | None => True
      end
  | ErrorsValue _ => True
  | RemoteErrorValue _ => True
  | APIErrorValue aerr =>
      match wrapper aerr with
      | None => False
      | Some w =>
          match err w with
          | Some e' => constructed e'
          | None => True
          end
      end
  end.

(** An option that leaves the kind of the error alone, as [WithCode] and
    [WithMessage] do. *)
Definition keepsKind (opt : APIError → APIError) : Prop :=
  ∀ aerr, Kind (opt aerr) = Kind aerr.

End util.

(** ** Facts about the monad *)

Section MonadFacts.
Context {W : Type}.
Implicit Types w : W.

Lemma result_bind {A B} (m : M A) (f : A → M B) w :
  result (bind m f w) =
  match result (m w) with
  | Ok a => result (f a (world (m w)))
  | Err e => Err e
  | Panic msg => Panic msg
  end.
Proof.
  unfold bind, result, world. destruct (m w) as [[[a|e|msg] w1] t1]; simpl; try done.
  by destruct (f a w1) as [[r w2] t2].
Qed.

Lemma calls_bind {A B} (m : M A) (f : A → M B) w :
  calls (bind m f w) =
  calls (m w) ++
  match result (m w) with
  | Ok a => calls (f a (world (m w)))
  | _ => []
  end.
Proof.
  unfold bind, result, world, calls.
  destruct (m w) as [[[a|e|msg] w1] t1]; simpl; rewrite ?app_nil_r; try done.
  by destruct (f a w1) as [[r w2] t2].
Qed.

Lemma world_bind {A B} (m : M A) (f : A → M B) w :
  world (bind m f w) =
  match result (m w) with
  | Ok a => world (f a (world (m w)))
  | _ => world (m w)
  end.
Proof.
  unfold bind, result, world.
  destruct (m w) as [[[a|e|msg] w1] t1]; simpl; try done.
  by destruct (f a w1) as [[r w2] t2].
Qed.

Lemma result_try {A} c (f : W → reply A * W) w :
  result (try c f w) =
  match (f w).1 with
  | Done a => Ok a
  | Fail err => Err (WithStack err)
  end.
Proof.
  unfold try, call, bind, check, result. by destruct (f w) as [[a|err] w1].
Qed.

Lemma calls_try {A} c (f : W → reply A * W) w : calls (try c f w) = [c].
Proof.
  unfold try, call, bind, check, calls. by destruct (f w) as [[a|err] w1].
Qed.

Lemma world_try {A} c (f : W → reply A * W) w : world (try c f w) = (f w).2.
Proof.
  unfold try, call, bind, check, world. by destruct (f w) as [[a|err] w1].
Qed.

Lemma result_call {A} c (f : W → reply A * W) w : result (call c f w) = Ok (f w).1.
Proof. unfold call, result. by destruct (f w). Qed.

Lemma calls_call {A} c (f : W → reply A * W) w : calls (call c f w) = [c].
Proof. unfold call, calls. by destruct (f w). Qed.

Lemma world_call {A} c (f : W → reply A * W) w : world (call c f w) = (f w).2.
Proof. unfold call, world. by destruct (f w). Qed.

Lemma calls_check {A} (r : reply A) w : calls (check r w) = [].
Proof. by destruct r. Qed.

Lemma world_check {A} (r : reply A) w : world (check r w) = w.
Proof. by destruct r. Qed.

Lemma result_check {A} (r : reply A) w :
  result (check r w) =
  match r with
  | Done a => Ok a
  | Fail err => Err (WithStack err)
  end.
Proof. by destruct r. Qed.

Lemma world_emit c w : world (emit c w) = w.
Proof. done. Qed.

Lemma world_ret {A} (a : A) w : world (ret a w) = w.
Proof. done. Qed.

Lemma world_fail {A} e w : world (fail (A:=A) e w) = w.
Proof. done. Qed.

Lemma world_liftOutcome {A} (o : outcome A) w : world (liftOutcome o w) = w.
Proof. done. Qed.

Lemma result_liftOutcome {A} (o : outcome A) w : result (liftOutcome o w) = o.
Proof. done. Qed.

Lemma calls_liftOutcome {A} (o : outcome A) w : calls (liftOutcome o w) = [].
Proof. done. Qed.
End MonadFacts.

(** Rewrites a run down to the replies of the runtime. *)
Ltac run_simpl :=
  repeat (rewrite ?result_bind, ?calls_bind, ?world_bind,
            ?result_try, ?calls_try, ?world_try,
            ?result_call, ?calls_call, ?world_call,
            ?result_check, ?calls_check, ?world_check,
            ?world_emit, ?world_ret, ?world_fail,
            ?world_liftOutcome, ?result_liftOutcome, ?calls_liftOutcome; simpl).


(** ** The image fetch policy *)

Section FetchImage.
Context {W : Type} (K : Constants) (L : Libs) (R : Runtime W).
Implicit Types w : W.










End FetchImage.


(** ** Exec sessions *)

Section ExecSession.
Context {W : Type} (L : Libs) (R : Runtime W).
Implicit Types w : W.

End ExecSession.


Section WaitSession.
Context {W : Type} (R : Runtime W).
Implicit Types w : W.

(** When the copy has ended and the first inspection reports the exec
    as no longer running, [Wait] closes the attached connection before
    it returns the exit code. *)
Lemma Wait_completed_closes_connection e copyErr pick fuel w resp w1 :
  on_ContainerExecInspect R (execID e) w = (Done resp, w1) →
  Running resp = false →
  let run := Wait R e None (Some copyErr) pick (S fuel) w in
  result run = Ok (Some (ExitCode resp, None)) ∧
  calls run = [ContainerExecInspect (execID e); hresp_Close (hresp e)].
Proof.
  intros Hinspect Hdone run. unfold run, Wait. simpl. run_simpl.
  rewrite Hinspect. simpl. rewrite Hdone. simpl. by run_simpl.
Qed.

(** C4. With the caller's context cancelled while the copy is still
    streaming, [Wait] returns at once with exit code 0 and the context's
    [Canceled] error, and it issues no call at all: the attached
    connection is not closed. *)
Theorem Wait_cancelled_leaves_connection_open e pick fuel w :
  let run := Wait R e (Some context_Canceled) None pick fuel w in
  result run = Ok (Some (0, Some (WithStack context_Canceled))) ∧
  world run = w ∧
  calls run = [] ∧
  ¬ Exists (closes (hresp e)) (calls run).
Proof.
  intros run. unfold run, Wait. simpl.
  split; [done|]. split; [done|]. split; [done|].
  intros Hclosed. by apply Exists_nil in Hclosed.
Qed.
End WaitSession.

(** ** Removal *)

Section Removal.
Context {W : Type} (K : Constants) (R : Runtime W).
Implicit Types w : W.

Lemma removeContainers_calls cs errs w :
  calls (removeContainers R cs errs w)
  = (λ c, ContainerRemove (ID (dcContainer c)) true) <$> cs.
Proof.
  revert errs w. induction cs as [|c cs IH]; intros errs w; [done|].
  simpl. run_simpl. by rewrite IH.
Qed.

Lemma removeContainers_ok cs errs w :
  ∃ errs', result (removeContainers R cs errs w) = Ok errs'.
Proof.
  revert errs w. induction cs as [|c cs IH]; intros errs w; [by eexists|].
  simpl. run_simpl. apply IH.
Qed.

Lemma removeVolume_calls name errs w :
  calls (removeVolume R name errs w)
  = if decide (name = "") then [] else [VolumeRemove name true].
Proof.
  unfold removeVolume. case_bool_decide; case_decide; try done. by run_simpl.
Qed.

Lemma removeVolume_ok name errs w :
  ∃ errs', result (removeVolume R name errs w) = Ok errs'.
Proof.
  unfold removeVolume. case_bool_decide; [|by eexists]. run_simpl. by eexists.
Qed.

(** The calls of [Remove]: the forced removal of every member
    container, then of the toolbox and the project volume, each only
    when its recorded name is not empty. *)
Lemma Remove_calls dp w :
  calls (Remove R dp w)
  = ((λ c, ContainerRemove (ID (dcContainer c)) true) <$> containers dp)
    ++ (if decide (toolboxVolumeName dp = "") then []
        else [VolumeRemove (toolboxVolumeName dp) true])
    ++ (if decide (projectVolumeName dp = "") then []
        else [VolumeRemove (projectVolumeName dp) true]).
Proof.
  unfold Remove. rewrite calls_bind, removeContainers_calls. f_equal.
  destruct (removeContainers_ok (containers dp) [] w) as [errs ->].
  rewrite calls_bind, removeVolume_calls. f_equal.
  match goal with
  | |- context [removeVolume R ?n ?e ?w0] =>
      destruct (removeVolume_ok n e w0) as [errs1 ->]
  end.
  rewrite calls_bind, removeVolume_calls.
  match goal with
  | |- context [result (removeVolume R ?n ?e ?w0)] =>
      destruct (removeVolume_ok n e w0) as [errs2 ->]
  end.
  case_bool_decide; simpl; by rewrite app_nil_r.
Qed.
End Removal.

(** ** Rehydration of pods *)

Section Rehydration.
Context {W : Type} (K : Constants) (R : Runtime W).
Implicit Types (w : W) (podsMap : gmap string DockerPod).

Lemma GetPods_result d all w :
  result (GetPods K R d all w)
  = match (on_ContainerList R ∅ all w).1 with
    | Done listed =>
        match (on_VolumeList R ∅ (on_ContainerList R ∅ all w).2).1 with
        | Done volumes => groupPods K d listed volumes
        | Fail err => Err (WithStack err)
        end
    | Fail err => Err (WithStack err)
    end.
Proof.
  unfold GetPods. run_simpl.
  destruct (on_ContainerList R ∅ all w).1; [|done]. run_simpl.
  destruct (on_VolumeList R ∅ _).1; [|done]. run_simpl.
  by destruct (groupPods K d _ _).
Qed.

(** A container of this executor with a pod label but without a
    parseable index label makes the second loop dereference nil. *)
Lemma fillPods_unindexed d listed podsMap c podID :
  c ∈ listed →
  ownerPodID K d (Labels c) = Some podID →
  indexOf K c = None →
  fillPods K d listed podsMap = Panic nilDereference.
Proof.
  intros Hin Hown Hidx. revert podsMap.
  induction listed as [|c' rest IH]; intros podsMap; [by apply elem_of_nil in Hin|].
  apply elem_of_cons in Hin as [<-|Hin].
  - simpl. rewrite Hown. unfold indexOf in Hidx.
    destruct (Labels c !! containerIndexKey K) as [s|]; simpl in *.
    + rewrite Hidx. simpl. by rewrite lookup_delete_eq.
    + simpl. by rewrite lookup_delete_eq.
  - simpl. destruct (ownerPodID K d (Labels c')) as [podID'|]; [|by apply IH].
    repeat case_match; try done; by apply IH.
Qed.

(** Properties of the pods under construction that every step of
    [collectPods] and [fillPods] keeps. *)
Section Preserved.
Context (d : DockerDriver) (P : string → DockerPod → Prop).
Hypothesis P_empty : ∀ podID, P podID (emptyPod d podID).
Hypothesis P_add : ∀ podID pod c dc, P podID pod → P podID (addContainer K pod c dc).
Hypothesis P_labels : ∀ podID pod l, P podID pod → P podID (setLabels pod l).

Lemma collectPods_preserves listed podsMap :
  map_Forall P podsMap → map_Forall P (collectPods K d listed podsMap).
Proof.
  revert podsMap. induction listed as [|c rest IH]; intros podsMap HP; [done|].
  simpl. repeat case_match; try by apply IH.
  apply IH, map_Forall_insert_2; auto.
Qed.

Lemma fillPods_preserves listed podsMap podsMap' :
  map_Forall P podsMap →
  fillPods K d listed podsMap = Ok podsMap' →
  map_Forall P podsMap'.
Proof.
  revert podsMap. induction listed as [|c rest IH]; intros podsMap HP Hfill.
  { simpl in Hfill. by simplify_eq. }
  simpl in Hfill.
  destruct (ownerPodID K d (Labels c)) as [podID|]; [|by eapply IH].
  set (m1 := if bool_decide (Labels c !! containerIndexKey K = None)
             then delete podID podsMap else podsMap) in *.
  set (m2 := if bool_decide
                  (strconv_Atoi (default "" (Labels c !! containerIndexKey K)) = None)
             then delete podID m1 else m1) in *.
  assert (map_Forall P m2) as HP2.
  { unfold m2, m1. repeat case_bool_decide; repeat apply map_Forall_delete; done. }
  destruct (m2 !! podID) as [pod|] eqn:Hpod; [|done].
  eapply IH; [|exact Hfill].
  apply map_Forall_insert_2; [|done].
  pose proof (HP2 podID pod Hpod). case_bool_decide; auto.
Qed.
End Preserved.

Lemma elem_of_sortedPods pod podsMap :
  pod ∈ sortedPods podsMap →
  ∃ podID pod0,
    podsMap !! podID = Some pod0 ∧
    pod = setContainers pod0
            (slices_SortFunc ContainersByIndexSortFunc (containers pod0)).
Proof.
  unfold sortedPods. intros ([podID pod0] & -> & Hin)%list_elem_of_fmap.
  apply elem_of_map_to_list in Hin. by exists podID, pod0.
Qed.

Lemma addContainer_no_empty_name pod c dc :
  containersMap pod !! "" = None →
  containersMap (addContainer K pod c dc) !! "" = None.
Proof.
  intros Hnone. unfold addContainer.
  destruct (Labels c !! containerNameKey K) as [name|]; [|done].
  case_bool_decide; [|done]. simpl. by rewrite lookup_insert_ne.
Qed.

Lemma attachVolumes_preserves d (P : string → DockerPod → Prop) volumes podsMap :
  (∀ podID pod name, P podID pod → P podID (setToolboxVolumeName pod name)) →
  (∀ podID pod name, P podID pod → P podID (setProjectVolumeName pod name)) →
  map_Forall P podsMap →
  map_Forall P (attachVolumes K d volumes podsMap).
Proof.
  intros Htb Hpj. revert podsMap.
  induction volumes as [|vol rest IH]; intros podsMap HP; [done|].
  simpl. destruct (ownerPodID K d (VolumeLabels vol)) as [podID|]; [|by apply IH].
  destruct (podsMap !! podID) as [pod|] eqn:Hpod; [|by apply IH].
  apply IH, map_Forall_insert_2; [|done].
  pose proof (HP podID pod Hpod).
  repeat case_match; auto.
Qed.

(** No pod that [GetPods] builds has the empty name in its map. *)
Lemma groupPods_no_empty_name d listed volumes pods pod :
  groupPods K d listed volumes = Ok pods →
  pod ∈ pods →
  containersMap pod !! "" = None.
Proof.
  unfold groupPods. intros Hgroup Hin.
  destruct (fillPods K d listed _) as [podsMap| |] eqn:Hfill; [|done..].
  simplify_eq.
  apply elem_of_sortedPods in Hin as (podID & pod0 & Hpod0 & ->). simpl.
  assert (map_Forall (λ _ p, containersMap p !! "" = None) podsMap) as Hfilled.
  { apply (fillPods_preserves d (λ _ p, containersMap p !! "" = None))
      with (listed := listed) (podsMap := collectPods K d listed ∅); try done.
    - intros. by apply addContainer_no_empty_name.
    - by apply (collectPods_preserves d (λ _ p, containersMap p !! "" = None)). }
  eapply (attachVolumes_preserves d (λ _ p, containersMap p !! "" = None)) in Hfilled;
    [|done..].
  exact (Hfilled podID pod0 Hpod0).
Qed.

Lemma attachVolumes_recorded d volumes vols podsMap :
  vols ⊆ volumes →
  map_Forall (volumesRecorded K d volumes) podsMap →
  map_Forall (volumesRecorded K d volumes) (attachVolumes K d vols podsMap).
Proof.
  revert podsMap. induction vols as [|vol rest IH]; intros podsMap Hsub HP; [done|].
  assert (vol ∈ volumes) as Hvol by (apply Hsub; left).
  assert (rest ⊆ volumes) as Hrest by (intros x Hx; apply Hsub; by right).
  simpl. destruct (ownerPodID K d (VolumeLabels vol)) as [podID|] eqn:Hown;
    [|by apply IH].
  destruct (podsMap !! podID) as [pod|] eqn:Hpod; [|by apply IH].
  apply IH; [done|]. apply map_Forall_insert_2; [|done].
  destruct (HP podID pod Hpod) as (Hid & Htb & Hpj).
  destruct (VolumeLabels vol !! volumeNameKey K) as [name|] eqn:Hname; [|done].
  case_bool_decide as Htbn; [|case_bool_decide as Hpjn]; subst;
    repeat split; simpl; try done; intros _; by exists vol.
Qed.

Lemma groupPods_recorded d listed volumes pods pod :
  groupPods K d listed volumes = Ok pods →
  pod ∈ pods →
  volumesRecorded K d volumes (id pod) pod.
Proof.
  unfold groupPods. intros Hgroup Hin.
  destruct (fillPods K d listed _) as [podsMap| |] eqn:Hfill; [|done..].
  simplify_eq.
  apply elem_of_sortedPods in Hin as (podID & pod0 & Hpod0 & ->). simpl.
  set (P0 := λ (k : string) (p : DockerPod),
         id p = k ∧ toolboxVolumeName p = "" ∧ projectVolumeName p = "").
  assert (map_Forall P0 podsMap) as Hfilled.
  { apply (fillPods_preserves d P0)
      with (listed := listed) (podsMap := collectPods K d listed ∅); try done.
    - intros k p c dc. unfold P0, addContainer. by repeat case_match.
    - by apply (collectPods_preserves d P0). }
  assert (map_Forall (volumesRecorded K d volumes) podsMap) as Hinit.
  { intros k p Hp. destruct (Hfilled k p Hp) as (Hid & Htb & Hpj).
    split; [done|]. unfold recordedFrom. rewrite Htb, Hpj. by split. }
  pose proof (attachVolumes_recorded d volumes volumes podsMap
                (reflexivity _) Hinit podID pod0 Hpod0) as (Hid & Htb & Hpj).
  by rewrite Hid.
Qed.

(** C5. When a listed container of this executor carries a pod label
    but no parseable index label, [GetPods] does not return: deleting
    the pod from the map and going on, it dereferences the nil pointer
    the map then gives, and panics. *)
Theorem GetPods_panics_on_unindexed_container d all w listed volumes c podID
    (Hlisted : (on_ContainerList R ∅ all w).1 = Done listed)
    (Hvolumes : (on_VolumeList R ∅ (on_ContainerList R ∅ all w).2).1 = Done volumes)
    (Hin : c ∈ listed)
    (Hexecutor : Labels c !! executorIDKey K = Some (executorID d))
    (Hpod : Labels c !! podIDKey K = Some podID)
    (Hindex : indexOf K c = None) :
  result (GetPods K R d all w) = Panic nilDereference.
Proof.
  rewrite GetPods_result, Hlisted, Hvolumes. unfold groupPods.
  rewrite (fillPods_unindexed d listed _ c podID); try done.
  unfold ownerPodID. rewrite Hexecutor. by case_bool_decide.
Qed.

(** C7. No pod that [GetPods] returns has the empty name in its map
    from names to containers (only [NewPod] registers it), so an [Exec]
    with an empty target name on such a pod creates no exec and returns
    no session. *)
Theorem GetPods_pods_lack_empty_name (L : Libs) d all w pods pod execConfig w'
    (Hpods : result (GetPods K R d all w) = Ok pods)
    (Hin : pod ∈ pods)
    (Htarget : ecContainer execConfig = "") :
  containersMap pod !! "" = None ∧
  calls (Exec L R pod execConfig w') = [] ∧
  ∃ e, result (Exec L R pod execConfig w') = Err e ∧
       (e = ContainerNotFound "" ∨ ∃ err, e = WithStack err).
Proof.
  rewrite GetPods_result in Hpods.
  destruct (on_ContainerList R ∅ all w).1 as [listed|]; [|done].
  destruct (on_VolumeList R ∅ _).1 as [volumes|]; [|done].
  pose proof (groupPods_no_empty_name d listed volumes pods pod Hpods Hin) as Hnone.
  split; [done|]. unfold Exec. run_simpl. rewrite Htarget, Hnone.
  destruct (json_Marshal_env L (ecEnv execConfig)); simpl; eauto 6.
Qed.

(** C10. The calls of [Remove] are the forced removal of each member
    container, then of the toolbox volume and of the project volume,
    each of the two only when the pod's recorded name for it is not
    empty.  And a pod that [GetPods] returns has the empty name in a
    slot whenever no listed volume of this executor carries the pod's
    ID and that slot's volume name. *)
Theorem Remove_skips_unrecorded_volumes :
  (∀ dp w,
     calls (Remove R dp w)
     = ((λ c, ContainerRemove (ID (dcContainer c)) true) <$> containers dp)
       ++ (if decide (toolboxVolumeName dp = "") then []
           else [VolumeRemove (toolboxVolumeName dp) true])
       ++ (if decide (projectVolumeName dp = "") then []
           else [VolumeRemove (projectVolumeName dp) true])) ∧
  (∀ d all w volumes pods pod,
     (on_VolumeList R ∅ (on_ContainerList R ∅ all w).2).1 = Done volumes →
     result (GetPods K R d all w) = Ok pods →
     pod ∈ pods →
     ((∀ vol, vol ∈ volumes →
              ownerPodID K d (VolumeLabels vol) = Some (id pod) →
              VolumeLabels vol !! volumeNameKey K ≠ Some (toolboxVolumeName_const K)) →
      toolboxVolumeName pod = "") ∧
     ((∀ vol, vol ∈ volumes →
              ownerPodID K d (VolumeLabels vol) = Some (id pod) →
              VolumeLabels vol !! volumeNameKey K ≠ Some (projectVolumeName_const K)) →
      projectVolumeName pod = "")).
Proof.
  split; [apply Remove_calls|].
  intros d all w volumes pods pod Hvolumes Hpods Hin.
  rewrite GetPods_result in Hpods.
  destruct (on_ContainerList R ∅ all w).1 as [listed|]; [|done].
  rewrite Hvolumes in Hpods.
  destruct (groupPods_recorded d listed volumes pods pod Hpods Hin) as (_ & Htb & Hpj).
  split; intros Hnone.
  - destruct (decide (toolboxVolumeName pod = "")) as [|Hne]; [done|].
    destruct (Htb Hne) as (vol & Hvol & Hown & Hname & _).
    by destruct (Hnone vol Hvol Hown).
  - destruct (decide (projectVolumeName pod = "")) as [|Hne]; [done|].
    destruct (Hpj Hne) as (vol & Hvol & Hown & Hname & _).
    by destruct (Hnone vol Hvol Hown).
Qed.
End Rehydration.

(** ** Sorting *)

Section SortFacts.
Context {A : Type} (cmp : A → A → Z).

Lemma sort_insert_perm x (l : list A) : sort_insert cmp x l ≡ₚ x :: l.
Proof.
  induction l as [|y r IH]; simpl; [done|].
  case_match; [|done]. rewrite IH. apply Permutation_swap.
Qed.

Lemma slices_SortFunc_perm (l : list A) : slices_SortFunc cmp l ≡ₚ l.
Proof.
  induction l as [|x r IH]; simpl; [done|].
  unfold slices_SortFunc in *. simpl. by rewrite sort_insert_perm, IH.
Qed.

Lemma slices_SortFunc_length (l : list A) :
  length (slices_SortFunc cmp l) = length l.
Proof. by rewrite slices_SortFunc_perm. Qed.

(** With a comparison that follows a key, the result ascends along
    the key. *)
Context (key : A → Z).
Hypothesis cmp_key : ∀ a b, cmp a b <= 0 ↔ key a <= key b.

Lemma sort_insert_sorted x (l : list A) :
  StronglySorted (λ a b, key a <= key b) l →
  StronglySorted (λ a b, key a <= key b) (sort_insert cmp x l).
Proof.
  induction 1 as [|y r Hr IH Hy]; simpl.
  { repeat constructor. }
  destruct (cmp y x <=? 0) eqn:Hcmp.
  - apply Z.leb_le, cmp_key in Hcmp. constructor; [done|].
    rewrite sort_insert_perm. by constructor.
  - apply Z.leb_gt in Hcmp.
    assert (key x <= key y) as Hxy.
    { destruct (Z.le_gt_cases (key y) (key x)) as [Hle|Hgt]; [|lia].
      apply cmp_key in Hle. lia. }
    constructor; [by constructor|]. constructor; [done|].
    eapply Forall_impl; [exact Hy|]. simpl. intros; lia.
Qed.

Lemma slices_SortFunc_sorted (l : list A) :
  StronglySorted (λ a b, key a <= key b) (slices_SortFunc cmp l).
Proof.
  induction l as [|x r IH]; [constructor|].
  unfold slices_SortFunc in *. simpl. by apply sort_insert_sorted.
Qed.
End SortFacts.

Lemma ContainersByIndexSortFunc_key a b :
  ContainersByIndexSortFunc a b <= 0 ↔ Index a <= Index b.
Proof.
  unfold ContainersByIndexSortFunc, cmp_Compare.
  destruct (Z.ltb_spec (Index a) (Index b)); [lia|].
  destruct (Z.ltb_spec (Index b) (Index a)); lia.
Qed.

(** An ascending list of keys without repetition ascends strictly. *)
Lemma StronglySorted_le_NoDup_lt (l : list Z) :
  StronglySorted Z.le l → NoDup l → StronglySorted Z.lt l.
Proof.
  induction 1 as [|x r Hr IH Hx]; intros Hnd; [constructor|].
  apply NoDup_cons in Hnd as [Hnotin Hnd]. constructor; [auto|].
  apply Forall_forall. intros y Hy.
  assert (x ≠ y) by (intros ->; by apply Hnotin, list_elem_of_In).
  rewrite Forall_forall in Hx. specialize (Hx y Hy). lia.
Qed.

Lemma StronglySorted_fmap_key {A} (key : A → Z) (l : list A) :
  StronglySorted (λ a b, key a <= key b) l → StronglySorted Z.le (key <$> l).
Proof.
  induction 1 as [|x r Hr IH Hx]; simpl; constructor; [done|].
  by apply Forall_fmap.
Qed.

(** ** Re-discovery in NewPod *)

Section Discovery.
Context {W : Type} (K : Constants) (L : Libs) (R : Runtime W).
Implicit Types w : W.

Lemma containers_addContainer pod c dc :
  containers (addContainer K pod c dc) = containers pod ++ [dc].
Proof. unfold addContainer. by repeat case_match. Qed.

Lemma discover_ok listed pod seenIndexes count pod' count' :
  discover K listed pod seenIndexes count = Ok (pod', count') →
  containers pod' = containers pod ++ accepted K listed ∧
  count' = (count + length (accepted K listed))%nat ∧
  NoDup (Index <$> accepted K listed) ∧
  (∀ z, z ∈ Index <$> accepted K listed → z ∉ seenIndexes).
Proof.
  revert pod seenIndexes count.
  induction listed as [|c rest IH]; intros pod seen count Hok; simpl in *.
  { simplify_eq. rewrite app_nil_r. repeat split; [lia|constructor|].
    intros z Hz. by apply elem_of_nil in Hz. }
  unfold accepted, indexOf in *. simpl.
  destruct (Labels c !! containerIndexKey K) as [s|]; simpl; [|by apply IH].
  destruct (strconv_Atoi s) as [z|]; simpl; [|by apply IH].
  case_bool_decide as Hseen; [done|].
  apply IH in Hok as (Hcs & Hcount & Hnd & Hfresh).
  rewrite containers_addContainer, <- app_assoc in Hcs.
  repeat split; [done|lia| |].
  - apply NoDup_cons. split; [|done].
    intros Hz. apply Hfresh in Hz. apply Hz, elem_of_union. left.
  by apply elem_of_singleton.
  - intros z' [->|Hz']%elem_of_cons; [done|].
    apply Hfresh in Hz'. intros Hs. apply Hz', elem_of_union. by right.
Qed.

Lemma omap_length_le {A B} (f : A → option B) (l : list A) :
  (length (omap f l) ≤ length l)%nat.
Proof. induction l as [|x r IH]; csimpl; [done|]. destruct (f x); csimpl; lia. Qed.

Lemma omap_full {A B} (f : A → option B) (l : list A) :
  length (omap f l) = length l → Some <$> omap f l = f <$> l.
Proof.
  induction l as [|x r IH]; csimpl; [done|].
  pose proof (omap_length_le f r).
  destruct (f x); csimpl; intros Hlen; [|lia].
  f_equal. apply IH. lia.
Qed.

Lemma accepted_indexes listed :
  length (accepted K listed) = length listed →
  Some <$> (Index <$> accepted K listed) = indexOf K <$> listed.
Proof.
  unfold accepted. induction listed as [|c rest IH]; csimpl; [done|].
  pose proof (omap_length_le
                (λ c, (λ z, {| Index := z; dcContainer := sortMounts c |})
                        <$> indexOf K c) rest).
  destruct (indexOf K c); csimpl; intros Hlen; [|lia].
  f_equal. apply IH. lia.
Qed.

(** A listing in which an index occurs twice, or occurs once and has
    been seen, stops the loop with the duplicate error. *)
Lemma discover_duplicate listed pod seenIndexes count i c z :
  listed !! i = Some c →
  indexOf K c = Some z →
  (z ∈ seenIndexes ∨
   ∃ j c', (j < i)%nat ∧ listed !! j = Some c' ∧ indexOf K c' = Some z) →
  ∃ z', discover K listed pod seenIndexes count = Err (DuplicateContainerIndex z').
Proof.
  revert pod seenIndexes count i.
  induction listed as [|c0 rest IH]; intros pod seen count i Hi Hz Hdup; [done|].
  simpl.
  destruct (Labels c0 !! containerIndexKey K) as [s|] eqn:Hlabel; simpl.
  2: { destruct i as [|i]; simpl in Hi.
       { simplify_eq. unfold indexOf in Hz. by rewrite Hlabel in Hz. }
       apply (IH _ _ _ i); [done..|].
       destruct Hdup as [?|(j & c' & Hj & Hc' & Hz')]; [by left|right].
       destruct j as [|j]; simpl in Hc'.
       { simplify_eq. unfold indexOf in Hz'. by rewrite Hlabel in Hz'. }
       exists j, c'. repeat split; [lia|done..]. }
  destruct (strconv_Atoi s) as [z0|] eqn:Hparse.
  2: { destruct i as [|i]; simpl in Hi.
       { simplify_eq. unfold indexOf in Hz. rewrite Hlabel in Hz. simpl in Hz.
         by rewrite Hparse in Hz. }
       apply (IH _ _ _ i); [done..|].
       destruct Hdup as [?|(j & c' & Hj & Hc' & Hz')]; [by left|right].
       destruct j as [|j]; simpl in Hc'.
       { simplify_eq. unfold indexOf in Hz'. rewrite Hlabel in Hz'. simpl in Hz'.
         by rewrite Hparse in Hz'. }
       exists j, c'. repeat split; [lia|done..]. }
  assert (indexOf K c0 = Some z0) as Hz0.
  { unfold indexOf. rewrite Hlabel. simpl. by rewrite Hparse. }
  case_bool_decide as Hseen; [by eexists|].
  destruct i as [|i]; simpl in Hi.
  { simplify_eq. destruct Hdup as [?|(j & ? & ? & _)]; [done|lia]. }
  apply (IH _ _ _ i); [done..|].
  destruct Hdup as [?|(j & c' & Hj & Hc' & Hz')]; [left; apply elem_of_union; by right|].
  destruct j as [|j]; simpl in Hc'.
  { simplify_eq. left. apply elem_of_union. left. by apply elem_of_singleton. }
  right. exists j, c'. repeat split; [lia|done..].
Qed.

Lemma assemblePod_ok pod0 listed pod :
  containers pod0 = [] →
  assemblePod K pod0 listed = Ok pod →
  containers pod = slices_SortFunc ContainersByIndexSortFunc (accepted K listed) ∧
  length (accepted K listed) = length listed ∧
  NoDup (Index <$> accepted K listed) ∧
  containersMap pod !! "" = head (containers pod).
Proof.
  intros Hempty. unfold assemblePod.
  destruct (discover K listed pod0 ∅ 0%nat) as [[pod1 count]| |] eqn:Hdisc; [|done..].
  apply discover_ok in Hdisc as (Hcs & Hcount & Hnd & _).
  rewrite Hempty in Hcs. simpl in *.
  case_bool_decide as Hlen; [done|].
  rewrite Hcs. destruct (slices_SortFunc _ _) as [|first sorted] eqn:Hsort; [done|].
  intros [= <-]. simpl. rewrite lookup_insert_eq.
  repeat split; [lia|done].
Qed.

Lemma NewPod_result d podConfig out w :
  Containers podConfig ≠ [] →
  result (NewPod K L R d podConfig out w)
  = match result (preparePod K L R d podConfig out w) with
    | Ok vols =>
        result (rediscover K R d podConfig vols.1 vols.2
                  (world (preparePod K L R d podConfig out w)))
    | Err e => Err e
    | Panic msg => Panic msg
    end.
Proof.
  intros Hne. unfold NewPod. case_bool_decide as Hlen.
  { by apply length_zero_iff_nil in Hlen. }
  by rewrite result_bind.
Qed.

Lemma rediscover_result d podConfig tv pv w :
  result (rediscover K R d podConfig tv pv w)
  = match (on_ContainerList R (labelFilters (searchLabelsOf K d podConfig)) false w).1
    with
    | Done listed =>
        if bool_decide (length listed = 0%nat)
        then Err (NoContainerWithLabels (searchLabelsOf K d podConfig))
        else assemblePod K
               {| id := pcID podConfig; labels := None; containers := [];
                  containersMap := ∅;
                  toolboxVolumeName := VolumeName tv;
                  projectVolumeName := VolumeName pv;
                  podExecutorID := executorID d;
                  initVolumeDir := InitVolumeDir podConfig |} listed
    | Fail err => Err (WithStack err)
    end.
Proof.
  unfold rediscover. run_simpl.
  destruct (on_ContainerList R _ false w).1; [|done].
  by case_bool_decide.
Qed.

(** What a successful [NewPod] says about the listing it was built
    from. *)
Lemma NewPod_ok d podConfig out w pod :
  result (NewPod K L R d podConfig out w) = Ok pod →
  ∃ listed,
    (on_ContainerList R (labelFilters (searchLabelsOf K d podConfig)) false
       (world (preparePod K L R d podConfig out w))).1 = Done listed ∧
    listed ≠ [] ∧
    containers pod = slices_SortFunc ContainersByIndexSortFunc (accepted K listed) ∧
    length (accepted K listed) = length listed ∧
    NoDup (Index <$> accepted K listed) ∧
    containersMap pod !! "" = head (containers pod).
Proof.
  intros Hok.
  assert (Containers podConfig ≠ []) as Hne.
  { intros Hnil. unfold NewPod in Hok. by rewrite Hnil in Hok. }
  rewrite NewPod_result in Hok by done.
  destruct (result (preparePod K L R d podConfig out w)) as [vols| |]; [|done..].
  rewrite rediscover_result in Hok.
  destruct (on_ContainerList R _ false _).1 as [listed|]; [|done].
  case_bool_decide as Hlen; [done|].
  exists listed. split; [done|]. split.
  { intros ->. by apply Hlen. }
  eapply assemblePod_ok; [|exact Hok]; done.
Qed.

(** C3, as the code has it. The re-discovery step of [NewPod] compares
    the number of listed containers whose index label parses with the
    number of listed containers, not with the number of declared ones,
    and never looks at the declared indexes: a [NewPod] that returns a
    pod was given a listing that is not empty, in which every container
    carries a parseable index and no index occurs twice, and the pod has
    as many containers as were listed.  And once the volumes and the
    containers are created, a listing in which two containers carry the
    same index makes the whole [NewPod] call fail with the duplicate
    index error. *)
Theorem rediscovery_requirements d podConfig out w :
  let prep := preparePod K L R d podConfig out w in
  let listing :=
    (on_ContainerList R (labelFilters (searchLabelsOf K d podConfig)) false
       (world prep)).1 in
  let run := NewPod K L R d podConfig out w in
  (∀ pod, result run = Ok pod →
          ∃ listed, listing = Done listed ∧
                    listed ≠ [] ∧
                    Forall (λ c, is_Some (indexOf K c)) listed ∧
                    NoDup (indexOf K <$> listed) ∧
                    length (containers pod) = length listed) ∧
  (∀ vols listed i j ci cj z,
     Containers podConfig ≠ [] →
     result prep = Ok vols →
     listing = Done listed →
     i ≠ j →
     listed !! i = Some ci → listed !! j = Some cj →
     indexOf K ci = Some z → indexOf K cj = Some z →
     ∃ z', result run = Err (DuplicateContainerIndex z')).
Proof.
  intros prep listing run. split.
  - intros pod Hok.
    destruct (NewPod_ok d podConfig out w pod Hok)
      as (listed & Hlisted & Hne & Hcs & Hlen & Hnd & _).
    exists listed. split; [done|]. split; [done|].
    pose proof (accepted_indexes listed Hlen) as Hidx.
    repeat split.
    + apply Forall_forall. intros c Hc.
      assert (indexOf K c ∈ indexOf K <$> listed) as Hin
          by (by apply list_elem_of_fmap_2).
      rewrite <- Hidx in Hin.
      apply list_elem_of_fmap in Hin as (z & -> & _). by eexists.
    + rewrite <- Hidx. apply NoDup_fmap_2; [|done]. by intros ?? [=].
    + by rewrite Hcs, slices_SortFunc_length.
  - intros vols listed i j ci cj z Hne Hprep Hlisted Hij Hi Hj Hzi Hzj.
    unfold run. rewrite NewPod_result by done. fold prep. rewrite Hprep.
    rewrite rediscover_result. fold prep listing. rewrite Hlisted.
    case_bool_decide as Hlen.
    { apply length_zero_iff_nil in Hlen. by rewrite Hlen in Hi. }
    unfold assemblePod.
    destruct (Nat.lt_total i j) as [Hlt|[?|Hlt]]; [|done|].
    + destruct (discover_duplicate listed
                  {| id := pcID podConfig; labels := None; containers := [];
                     containersMap := ∅;
                     toolboxVolumeName := VolumeName vols.1;
                     projectVolumeName := VolumeName vols.2;
                     podExecutorID := executorID d;
                     initVolumeDir := InitVolumeDir podConfig |}
                  ∅ 0%nat j cj z Hj Hzj) as [z' ->]; [|by eexists].
      right. by exists i, ci.
    + destruct (discover_duplicate listed
                  {| id := pcID podConfig; labels := None; containers := [];
                     containersMap := ∅;
                     toolboxVolumeName := VolumeName vols.1;
                     projectVolumeName := VolumeName vols.2;
                     podExecutorID := executorID d;
                     initVolumeDir := InitVolumeDir podConfig |}
                  ∅ 0%nat i ci z Hi Hzi) as [z' ->]; [|by eexists].
      right. by exists j, cj.
Qed.

(** C8, as the code has it. The containers of a pod that [NewPod]
    returns are those of the runtime's listing for the pod's labels,
    whatever number was declared: there are as many as were listed, at
    least one, their indexes are the index labels of the listed
    containers, no index occurs twice, and the sequence ascends strictly
    by index. *)
Theorem NewPod_containers_follow_listing d podConfig out w pod
    (Hok : result (NewPod K L R d podConfig out w) = Ok pod) :
  ∃ listed,
    (on_ContainerList R (labelFilters (searchLabelsOf K d podConfig)) false
       (world (preparePod K L R d podConfig out w))).1 = Done listed ∧
    length (containers pod) = length listed ∧
    (0 < length listed)%nat ∧
    Some <$> (Index <$> containers pod) ≡ₚ indexOf K <$> listed ∧
    NoDup (Index <$> containers pod) ∧
    StronglySorted Z.lt (Index <$> containers pod).
Proof.
  destruct (NewPod_ok d podConfig out w pod Hok)
    as (listed & Hlisted & Hne & Hcs & Hlen & Hnd & _).
  exists listed. split; [done|].
  assert (containers pod ≡ₚ accepted K listed) as Hperm.
  { rewrite Hcs. apply slices_SortFunc_perm. }
  assert (NoDup (Index <$> containers pod)) as Hnd'.
  { by rewrite Hperm. }
  repeat split.
  - by rewrite Hperm.
  - destruct listed; [done|simpl; lia].
  - rewrite Hperm. by rewrite accepted_indexes.
  - done.
  - apply StronglySorted_le_NoDup_lt; [|done].
    apply StronglySorted_fmap_key. rewrite Hcs.
    apply slices_SortFunc_sorted, ContainersByIndexSortFunc_key.
Qed.
End Discovery.

(** C3, counterexample. Two containers are declared; the runtime lists
    one container for the pod's labels (the other has already exited);
    [NewPod] returns a pod, with that one container. *)
Lemma NewPod_accepts_fewer_containers_than_declared :
  let podConfig :=
    Sample.podConfig [Sample.containerConfig "alpine:3" "";
                      Sample.containerConfig "redis:7" "db"] in
  let listed := [Sample.listedContainer "c0" "p1" "0" "main"] in
  length (Containers podConfig) = 2%nat ∧
  length listed = 1%nat ∧
  ∃ pod,
    result (NewPod Sample.specConstants (Sample.libs "3") (Sample.runtime [] listed [])
              Sample.driver podConfig "out" tt) = Ok pod ∧
    Index <$> containers pod = [0].
Proof.
  simpl. split; [done|]. split; [done|].
  eexists. split; [vm_compute; reflexivity|]. vm_compute. reflexivity.
Qed.

(** C8, counterexample. Two containers are declared; the runtime lists
    only the one with index 1 (the main container has already exited);
    [NewPod] returns a pod whose only container has index 1. *)
Lemma NewPod_pod_may_lack_declared_indexes :
  let podConfig :=
    Sample.podConfig [Sample.containerConfig "alpine:3" "";
                      Sample.containerConfig "redis:7" "db"] in
  let listed := [Sample.listedContainer "c1" "p1" "1" "db"] in
  length (Containers podConfig) = 2%nat ∧
  ∃ pod,
    result (NewPod Sample.specConstants (Sample.libs "3") (Sample.runtime [] listed [])
              Sample.driver podConfig "out" tt) = Ok pod ∧
    Index <$> containers pod = [1] ∧
    Index <$> containers pod ≠ [0; 1].
Proof.
  simpl. split; [done|].
  eexists. split; [vm_compute; reflexivity|]. split; [vm_compute; reflexivity|].
  vm_compute. discriminate.
Qed.

(** ** Container creation *)

Section Creation.
Context {W : Type} (K : Constants) (L : Libs) (R : Runtime W).
Implicit Types w : W.


Lemma fetchImage_creates_nothing d image alwaysFetch creds out w config hostConfig :
  ¬ In (ContainerCreate config hostConfig)
       (calls (fetchImage L R d image alwaysFetch creds out w)).
Proof.
  unfold fetchImage. run_simpl.
  repeat (case_match; run_simpl); simpl; intuition discriminate.
Qed.

(** The network mode of every container that [createContainer]
    creates: empty for index 0, the main container's namespace for the
    others. *)
Lemma createContainer_network d index podConfig main tv pv out w config hostConfig :
  In (ContainerCreate config hostConfig)
     (calls (createContainer K L R d index podConfig main tv pv out w)) →
  NetworkMode hostConfig
  = if bool_decide (index ≠ 0%nat) then "container:" +:+ main else "".
Proof.
  unfold createContainer. destruct (Containers podConfig !! index) as [cc|]; [|done].
  rewrite calls_bind. intros [Hin|Hin]%in_app_or.
  { by apply fetchImage_creates_nothing in Hin. }
  destruct (result (fetchImage _ _ _ _ _ _ _ _)); [|done..].
  destruct (appendVolumeMounts _ _); [|done].
  rewrite calls_try in Hin. destruct Hin as [[= <- <-]|[]]. done.
Qed.

Lemma startContainers_network_unused net d podConfig tv pv out cindexes main w :
  startContainers K L R (WithDockerDriverNetwork net d) podConfig tv pv out cindexes main w
  = startContainers K L R d podConfig tv pv out cindexes main w.
Proof.
  revert main w. induction cindexes as [|i rest IH]; intros main w; [done|].
  simpl. unfold bind.
  change (createContainer K L R (WithDockerDriverNetwork net d))
    with (createContainer K L R d).
  destruct (createContainer K L R d i podConfig main tv pv out w)
    as [[[cid| |] w1] t1]; [|done..].
  destruct (try _ _ w1) as [[[[]| |] w2] t2]; [|done..].
  by rewrite IH.
Qed.

(** C6. The network configured for the driver has no effect on
    [NewPod]: the run with the option set is the run without it, and
    the container with index 0 is created with an empty network mode
    whatever the driver's network is; the containers with another index
    are created with the network mode [container:<mainContainerID>]. *)
Theorem NewPod_ignores_driver_network net d podConfig out w :
  NewPod K L R (WithDockerDriverNetwork net d) podConfig out w
  = NewPod K L R d podConfig out w ∧
  (∀ index main tv pv w' config hostConfig,
     In (ContainerCreate config hostConfig)
        (calls (createContainer K L R (WithDockerDriverNetwork net d) index podConfig
                  main tv pv out w')) →
     NetworkMode hostConfig
     = if bool_decide (index ≠ 0%nat) then "container:" +:+ main else "").
Proof.
  split; [|intros *; apply createContainer_network].
  unfold NewPod. case_bool_decide; [done|].
  unfold bind, preparePod, bind.
  change (createToolboxVolume K L R (WithDockerDriverNetwork net d))
    with (createToolboxVolume K L R d).
  change (createProjectVolume K R (WithDockerDriverNetwork net d))
    with (createProjectVolume K R d).
  change (rediscover K R (WithDockerDriverNetwork net d))
    with (rediscover K R d).
  destruct (createToolboxVolume K L R d (pcID podConfig) out w)
    as [[[tv| |] w1] t1]; [|done..].
  destruct (createProjectVolume K R d (pcID podConfig) out w1)
    as [[[pv| |] w2] t2]; [|done..].
  by rewrite startContainers_network_unused.
Qed.

(** *** Rejected configurations *)







End Creation.

(** ** Concrete runs *)

Lemma rediscovery_requirements_witness :
  let podConfig := Sample.podConfig [Sample.containerConfig "alpine:3" ""] in
  let listed := [Sample.listedContainer "c0" "p1" "0" "main";
                 Sample.listedContainer "c9" "p1" "0" "main"] in
  let R := Sample.runtime [] listed [] in
  (Containers podConfig ≠ [] ∧
   listed !! 0%nat = Some (Sample.listedContainer "c0" "p1" "0" "main") ∧
   listed !! 1%nat = Some (Sample.listedContainer "c9" "p1" "0" "main") ∧
   indexOf Sample.specConstants (Sample.listedContainer "c0" "p1" "0" "main") = Some 0 ∧
   indexOf Sample.specConstants (Sample.listedContainer "c9" "p1" "0" "main") = Some 0) ∧
  ∃ z, result (NewPod Sample.specConstants (Sample.libs "3") R Sample.driver
                 podConfig "out" tt) = Err (DuplicateContainerIndex z).
Proof.
  intros podConfig listed R.
  assert (indexOf Sample.specConstants (Sample.listedContainer "c0" "p1" "0" "main")
          = Some 0) as H0 by (vm_compute; reflexivity).
  assert (indexOf Sample.specConstants (Sample.listedContainer "c9" "p1" "0" "main")
          = Some 0) as H1 by (vm_compute; reflexivity).
  split; [repeat split; done|].
  eapply (proj2 (rediscovery_requirements Sample.specConstants (Sample.libs "3") R
                   Sample.driver podConfig "out" tt)
            _ listed 0%nat 1%nat _ _ 0);
    [done | vm_compute; reflexivity | reflexivity | done | reflexivity | reflexivity
    | exact H0 | exact H1].
Defined.

Lemma NewPod_containers_follow_listing_witness :
  let podConfig :=
    Sample.podConfig [Sample.containerConfig "alpine:3" "";
                      Sample.containerConfig "redis:7" "db"] in
  let listed := [Sample.listedContainer "c1" "p1" "1" "db";
                 Sample.listedContainer "c0" "p1" "0" "main"] in
  let R := Sample.runtime [] listed [] in
  ∃ pod,
    result (NewPod Sample.specConstants (Sample.libs "3") R Sample.driver
              podConfig "out" tt) = Ok pod ∧
    length (containers pod) = 2%nat ∧
    StronglySorted Z.lt (Index <$> containers pod).
Proof.
  intros podConfig listed R.
  destruct (result (NewPod Sample.specConstants (Sample.libs "3") R Sample.driver
                      podConfig "out" tt)) as [pod| |] eqn:Hok;
    [|vm_compute in Hok; discriminate..].
  exists pod. split; [done|].
  destruct (NewPod_containers_follow_listing Sample.specConstants (Sample.libs "3") R
              Sample.driver podConfig "out" tt pod Hok)
    as (listed' & Hlisted & Hlen & _ & _ & _ & Hsorted).
  split; [|done]. rewrite Hlen.
  change (Done listed = Done listed') in Hlisted. by injection Hlisted as <-.
Defined.

Lemma GetPods_panics_on_unindexed_container_witness :
  let listed := [Sample.listedContainer "c0" "p1" "0" "main";
                 Sample.unindexedContainer "c7" "p2"] in
  let R := Sample.runtime [] listed [] in
  (Sample.unindexedContainer "c7" "p2" ∈ listed ∧
   Labels (Sample.unindexedContainer "c7" "p2") !! "executorID" = Some "e1" ∧
   Labels (Sample.unindexedContainer "c7" "p2") !! "podID" = Some "p2" ∧
   indexOf Sample.specConstants (Sample.unindexedContainer "c7" "p2") = None) ∧
  result (GetPods Sample.specConstants R Sample.driver true tt) = Panic nilDereference.
Proof.
  intros listed R.
  assert (Sample.unindexedContainer "c7" "p2" ∈ listed) as Hin
      by (right; left).
  split; [repeat split; [done|vm_compute; reflexivity..]|].
  apply (GetPods_panics_on_unindexed_container Sample.specConstants R Sample.driver
           true tt listed [] (Sample.unindexedContainer "c7" "p2") "p2");
    [reflexivity | reflexivity | exact Hin | vm_compute; reflexivity..].
Defined.

Lemma GetPods_pods_lack_empty_name_witness :
  let listed := [Sample.listedContainer "c0" "p1" "0" "main"] in
  let R := Sample.runtime [] listed [] in
  ∃ pods pod,
    result (GetPods Sample.specConstants R Sample.driver true tt) = Ok pods ∧
    pod ∈ pods ∧
    containersMap pod !! "" = None ∧
    calls (Exec (Sample.libs "3") R pod (Sample.execConfig "" ["echo"; "hi"]) tt) = [].
Proof.
  intros listed R.
  destruct (result (GetPods Sample.specConstants R Sample.driver true tt))
    as [[|pod pods]| |] eqn:Hpods; [vm_compute in Hpods; discriminate| |
                                    vm_compute in Hpods; discriminate..].
  exists (pod :: pods), pod. split; [done|]. split; [left|].
  destruct (GetPods_pods_lack_empty_name Sample.specConstants R (Sample.libs "3")
              Sample.driver true tt (pod :: pods) pod
              (Sample.execConfig "" ["echo"; "hi"]) tt Hpods)
    as (Hnone & Hcalls & _); [left|done|]. by split.
Defined.

Lemma Remove_skips_unrecorded_volumes_witness :
  let listed := [Sample.listedContainer "c0" "p1" "0" "main"] in
  let R := Sample.runtime [] listed [] in
  ∃ pods pod,
    result (GetPods Sample.specConstants R Sample.driver true tt) = Ok pods ∧
    pod ∈ pods ∧
    toolboxVolumeName pod = "" ∧ projectVolumeName pod = "" ∧
    calls (Remove R pod tt)
    = (λ c, ContainerRemove (ID (dcContainer c)) true) <$> containers pod.
Proof.
  intros listed R.
  destruct (result (GetPods Sample.specConstants R Sample.driver true tt))
    as [[|pod pods]| |] eqn:Hpods; [vm_compute in Hpods; discriminate| |
                                    vm_compute in Hpods; discriminate..].
  exists (pod :: pods), pod. split; [done|]. split; [left|].
  destruct (Remove_skips_unrecorded_volumes Sample.specConstants R) as [Hcalls Hnames].
  destruct (Hnames Sample.driver true tt [] (pod :: pods) pod eq_refl Hpods)
    as [Htb Hpj]; [left|].
  assert (toolboxVolumeName pod = "") as Htb'.
  { apply Htb. intros vol Hvol. by apply elem_of_nil in Hvol. }
  assert (projectVolumeName pod = "") as Hpj'.
  { apply Hpj. intros vol Hvol. by apply elem_of_nil in Hvol. }
  split; [done|]. split; [done|].
  rewrite Hcalls, Htb', Hpj'. simpl. by rewrite app_nil_r.
Defined.


(** With the network [ci-net] configured for the driver, the helper
    container and the main container are created with an empty network
    mode, and the second container in the namespace of the main one. *)
Example NewPod_network_modes :
  Sample.networkModes
    (calls (NewPod Sample.specConstants (Sample.libs "3")
              (Sample.runtime [] [Sample.listedContainer "c0" "p1" "0" "main"] [])
              (WithDockerDriverNetwork "ci-net" Sample.driver)
              (Sample.podConfig [Sample.containerConfig "alpine:3" "";
                                 Sample.containerConfig "redis:7" "db"])
              "out" tt))
  = [""; ""; "container:c0"].
Proof. vm_compute. reflexivity. Qed.

(** The pod that [NewPod] builds from a listing without the main
    container registers the first listed container under the empty
    name. *)
Example NewPod_empty_name_is_first_listed :
  ∃ pod,
    result (NewPod Sample.specConstants (Sample.libs "3")
              (Sample.runtime [] [Sample.listedContainer "c1" "p1" "1" "db"] [])
              Sample.driver
              (Sample.podConfig [Sample.containerConfig "alpine:3" "";
                                 Sample.containerConfig "redis:7" "db"])
              "out" tt) = Ok pod ∧
    Index <$> containersMap pod !! "" = Some 1.
Proof. eexists. split; vm_compute; reflexivity. Qed.

(** ** Stop and Remove: every step is attempted *)

Section Teardown.
Context {W : Type} (R : Runtime W).
Implicit Types w : W.

Lemma stopContainers_run cs errs w :
  calls (stopContainers R cs errs w)
  = (λ c, ContainerStop (ID (dcContainer c)) 1) <$> cs ∧
  result (stopContainers R cs errs w)
  = Ok (errs ++ failuresOf
                  (threaded ((λ c, on_ContainerStop R (ID (dcContainer c)) 1) <$> cs) w)).
Proof.
  revert errs w. induction cs as [|c cs IH]; intros errs w; simpl.
  { by rewrite app_nil_r. }
  run_simpl. destruct (IH (appendErr errs (on_ContainerStop R (ID (dcContainer c)) 1 w).1)
                         (on_ContainerStop R (ID (dcContainer c)) 1 w).2) as [-> ->].
  split; [done|]. f_equal. unfold failuresOf. csimpl.
  destruct (on_ContainerStop R _ _ w).1; simpl; [done|]. by rewrite <- app_assoc.
Qed.

(** [Stop] asks the runtime to stop every member container, in order and
    with a timeout of one second, whatever the earlier stops answered; it
    fails exactly when some stop failed, with the failures in order. *)
Theorem Stop_attempts_every_container dp w :
  calls (Stop R dp w)
  = (λ c, ContainerStop (ID (dcContainer c)) 1) <$> containers dp ∧
  result (Stop R dp w) = aggregate StopErrors (failuresOf (threaded (stopSteps R dp) w)).
Proof.
  unfold Stop. destruct (stopContainers_run (containers dp) [] w) as [Hcalls Hres].
  rewrite calls_bind, result_bind, Hcalls, Hres. simpl.
  unfold stopSteps.
  destruct (failuresOf _) as [|err errs]; simpl; by rewrite app_nil_r.
Qed.

Lemma threaded_app {A} (a b : list (W → reply A * W)) w :
  threaded (a ++ b) w = threaded a w ++ threaded b (after a w).
Proof. revert w. induction a as [|f a IH]; intros w; simpl; [done|]. by rewrite IH. Qed.

Lemma failuresOf_app {A} (a b : list (reply A)) :
  failuresOf (a ++ b) = failuresOf a ++ failuresOf b.
Proof. unfold failuresOf. apply omap_app. Qed.

Lemma removeContainers_run cs errs w :
  let steps := (λ c, on_ContainerRemove R (ID (dcContainer c)) true) <$> cs in
  result (removeContainers R cs errs w) = Ok (errs ++ failuresOf (threaded steps w)) ∧
  world (removeContainers R cs errs w) = after steps w.
Proof.
  revert errs w. induction cs as [|c cs IH]; intros errs w; simpl.
  { by rewrite app_nil_r. }
  run_simpl.
  destruct (IH (appendErr errs (on_ContainerRemove R (ID (dcContainer c)) true w).1)
              (on_ContainerRemove R (ID (dcContainer c)) true w).2) as [-> ->].
  split; [|done]. f_equal. unfold failuresOf. csimpl.
  destruct (on_ContainerRemove R _ _ w).1; simpl; [done|]. by rewrite <- app_assoc.
Qed.

Lemma removeVolume_run name errs w :
  let steps := if decide (name = "") then [] else [on_VolumeRemove R name true] in
  result (removeVolume R name errs w) = Ok (errs ++ failuresOf (threaded steps w)) ∧
  world (removeVolume R name errs w) = after steps w.
Proof.
  unfold removeVolume. case_bool_decide; case_decide; try done; simpl.
  - run_simpl. split; [|done]. unfold failuresOf. csimpl.
    destruct (on_VolumeRemove R name true w).1; simpl; [|done]. by rewrite app_nil_r.
  - by rewrite app_nil_r.
Qed.

(** [Remove] force-removes every member container and then the volumes
    it has a name for, whatever the earlier removals answered; it fails
    exactly when some removal failed, with the failures in order. *)
Theorem Remove_attempts_every_step dp w :
  result (Remove R dp w) = aggregate RemoveErrors (failuresOf (threaded (removeSteps R dp) w)).
Proof.
  unfold Remove, removeSteps.
  destruct (removeContainers_run (containers dp) [] w) as [Hres Hw].
  rewrite result_bind, Hres. simpl.
  destruct (removeVolume_run (toolboxVolumeName dp)
              (failuresOf (threaded ((λ c, on_ContainerRemove R (ID (dcContainer c)) true)
                                       <$> containers dp) w))
              (world (removeContainers R (containers dp) [] w))) as [Hres1 Hw1].
  rewrite result_bind, Hres1. simpl.
  rewrite result_bind.
  match goal with
  | |- context [removeVolume R (projectVolumeName dp) ?e ?w0] =>
      destruct (removeVolume_run (projectVolumeName dp) e w0) as [Hres2 _]
  end.
  rewrite Hres2. simpl.
  rewrite !threaded_app, !failuresOf_app, <- Hw, <- Hw1, <- app_assoc.
  destruct (_ ++ _ ++ _) as [|err errs]; simpl; done.
Qed.
End Teardown.

(** ** Exec sessions, continued *)

Section ExecMore.
Context {W : Type} (L : Libs) (R : Runtime W).
Implicit Types w : W.

(** [Exec] with a target name that the pod's map does not have asks the
    runtime for nothing and fails: with "Container not found" when the
    environment marshals, with the marshalling error otherwise. *)
Theorem Exec_unknown_container dp execConfig w
    (Hmissing : containersMap dp !! ecContainer execConfig = None) :
  calls (Exec L R dp execConfig w) = [] ∧
  world (Exec L R dp execConfig w) = w ∧
  result (Exec L R dp execConfig w)
  = match json_Marshal_env L (ecEnv execConfig) with
    | Done _ => Err (ContainerNotFound (ecContainer execConfig))
    | Fail err => Err (WithStack err)
    end.
Proof.
  unfold Exec. run_simpl.
  destruct (json_Marshal_env L (ecEnv execConfig)); [|done].
  by rewrite Hmissing.
Qed.

(** A session that [Exec] returns is attached to the exec it has just
    created in the target container: two calls, the creation with the
    caller's TTY, stdin and user settings and with stdout and stderr
    attached exactly when a sink was given, then the attachment to the
    exec the runtime answered, never detached. *)
Theorem Exec_session_attached dp execConfig w session
    (Hok : result (Exec L R dp execConfig w) = Ok session) :
  ∃ target config,
    containersMap dp !! ecContainer execConfig = Some target ∧
    calls (Exec L R dp execConfig w)
    = [ContainerExecCreate (ID (dcContainer target)) config;
       ContainerExecAttach (execID session) false (ecTty execConfig)] ∧
    (on_ContainerExecCreate R (ID (dcContainer target)) config w).1
    = Done (execID session) ∧
    xTty config = ecTty execConfig ∧
    xAttachStdin config = ecAttachStdin execConfig ∧
    (xAttachStdout config = true ↔ ecStdout execConfig ≠ None) ∧
    (xAttachStderr config = true ↔ ecStderr execConfig ≠ None) ∧
    xUser config = ecUser execConfig ∧
    xDetach config = false.
Proof.
  revert Hok. unfold Exec. run_simpl.
  destruct (json_Marshal_env L (ecEnv execConfig)) as [envj|]; [|done].
  destruct (containersMap dp !! ecContainer execConfig) as [target|]; [|done].
  run_simpl.
  destruct (on_ContainerExecCreate R _ _ w).1 as [responseID|] eqn:Hcreate; [|done].
  run_simpl.
  destruct (on_ContainerExecAttach R _ _ _ _).1 as [conn|]; [|done].
  intros [= <-]. eexists target, _. simpl.
  split; [done|]. split; [done|]. split; [exact Hcreate|]. simpl.
  rewrite !bool_decide_eq_true. done.
Qed.
End ExecMore.

Section WaitMore.
Context {W : Type} (R : Runtime W).
Implicit Types w : W.

Lemma inspectLoop_shape e fuel w :
  ∃ k, (k ≤ fuel)%nat ∧
    let run := inspectLoop R fuel e w in
    (result run = Ok None ∧ k = fuel ∧ calls run = pollRounds e k) ∨
    (∃ code, result run = Ok (Some (code, None)) ∧
             calls run = pollRounds e k
                         ++ [ContainerExecInspect (execID e); hresp_Close (hresp e)]) ∨
    (∃ err, result run = Ok (Some (-1, Some (WithStack err))) ∧
            calls run = pollRounds e k ++ [ContainerExecInspect (execID e)]).
Proof.
  revert w. induction fuel as [|fuel IH]; intros w.
  { exists 0%nat. split; [done|]. by left. }
  simpl. run_simpl.
  destruct (on_ContainerExecInspect R (execID e) w).1 as [resp|err] eqn:Hinspect.
  - destruct (Running resp) eqn:Hrunning; simpl.
    + run_simpl.
      destruct (IH (on_time_Sleep R 500 (on_ContainerExecInspect R (execID e) w).2).2)
        as (k & Hk & Hcases).
      exists (S k). split; [lia|]. simpl in Hcases.
      destruct Hcases as [(Hres & -> & Hcalls)|[(code & Hres & Hcalls)|(err & Hres & Hcalls)]];
        rewrite Hres, Hcalls; [left|right; left|right; right]; eauto.
    + run_simpl. exists 0%nat. split; [lia|]. right. left. by eexists.
  - exists 0%nat. split; [lia|]. right. right. by eexists.
Qed.

(** Once the copy has ended, [Wait] alternates inspections of the exec
    with sleeps of 500 ms while the exec is reported running.  It returns
    the exit code of the first inspection that reports it stopped, after
    closing the attached connection; on a failed inspection it returns
    -1 and the error, and does not close the connection. *)
Theorem Wait_polls_until_stopped e ctxErr endCh pick fuel w copyErr
    (Hselect : select ctxErr endCh pick = Some (endCh_received copyErr)) :
  ∃ k, (k ≤ fuel)%nat ∧
    let run := Wait R e ctxErr endCh pick fuel w in
    (result run = Ok None ∧ k = fuel ∧ calls run = pollRounds e k) ∨
    (∃ code, result run = Ok (Some (code, None)) ∧
             calls run = pollRounds e k
                         ++ [ContainerExecInspect (execID e); hresp_Close (hresp e)]) ∨
    (∃ err, result run = Ok (Some (-1, Some (WithStack err))) ∧
            calls run = pollRounds e k ++ [ContainerExecInspect (execID e)]).
Proof. unfold Wait. rewrite Hselect. apply inspectLoop_shape. Qed.

Lemma inspectLoop_stable e fuel fuel' w r :
  result (inspectLoop R fuel e w) = Ok (Some r) →
  (fuel ≤ fuel')%nat →
  inspectLoop R fuel' e w = inspectLoop R fuel e w.
Proof.
  revert fuel' w. induction fuel as [|fuel IH]; intros fuel' w Hres Hle.
  { unfold result in Hres. simpl in Hres. discriminate. }
  destruct fuel' as [|fuel']; [lia|].
  revert Hres. simpl. unfold bind, call, result.
  destruct (on_ContainerExecInspect R (execID e) w) as [[resp|err] w1]; simpl; [|done].
  destruct (Running resp); simpl; [|done].
  destruct (on_time_Sleep R 500 w1) as [slept w2]; simpl.
  intros Hres. rewrite (IH fuel' w2); [done| |lia].
  revert Hres. unfold result.
  by destruct (inspectLoop R fuel e w2) as [[[o| |] w3] t3].
Qed.

(** The bound on the polling is an artefact of the model: a [Wait] that
    has returned within some number of inspections is the same run under
    every larger bound. *)
Theorem Wait_result_stable e ctxErr endCh pick fuel fuel' w r
    (Hreturned : result (Wait R e ctxErr endCh pick fuel w) = Ok (Some r))
    (Hle : (fuel ≤ fuel')%nat) :
  Wait R e ctxErr endCh pick fuel' w = Wait R e ctxErr endCh pick fuel w.
Proof.
  revert Hreturned. unfold Wait.
  destruct (select ctxErr endCh pick) as [[err|copyErr]|]; try done.
  intros Hres. by eapply inspectLoop_stable.
Qed.

(** [Wait] drops the error the copy ended with: what it does and returns
    is the same whatever that error was. *)
Theorem Wait_discards_copy_error e ctxErr copyErr copyErr' pick fuel w :
  Wait R e ctxErr (Some copyErr) pick fuel w
  = Wait R e ctxErr (Some copyErr') pick fuel w.
Proof. unfold Wait, select. destruct ctxErr; [destruct pick|]; done. Qed.
End WaitMore.

(** ** Decimal conversions *)

Lemma parse_digits_uint d acc :
  parse_digits (NilEmpty.string_of_uint d) acc = Some (uintValue d acc).
Proof.
  revert acc. induction d as [|d IH|d IH|d IH|d IH|d IH|d IH|d IH|d IH|d IH|d IH];
    intros acc; simpl; rewrite ?Z.add_0_r; [done | apply IH ..].
Qed.

Lemma of_uint_acc_value d acc :
  Z.pos (Pos.of_uint_acc d acc) = uintValue d (Z.pos acc).
Proof.
  revert acc. induction d as [|d IH|d IH|d IH|d IH|d IH|d IH|d IH|d IH|d IH|d IH];
    intros acc; simpl; [done | rewrite IH; f_equal; lia ..].
Qed.

Lemma of_uint_value d : Z.of_N (Pos.of_uint d) = uintValue d 0.
Proof.
  induction d as [|d IH|d IH|d IH|d IH|d IH|d IH|d IH|d IH|d IH|d IH];
    simpl; [done | exact IH | apply of_uint_acc_value ..].
Qed.

Lemma to_uint_value p : uintValue (Pos.to_uint p) 0 = Z.pos p.
Proof. by rewrite <- of_uint_value, DecimalPos.Unsigned.of_to. Qed.

(** A string that starts with a digit has no sign for [strconv.Atoi] to
    strip. *)
Lemma Atoi_digits d :
  d ≠ Decimal.Nil →
  strconv_Atoi (NilEmpty.string_of_uint d)
  = if (- 2 ^ 63 <=? uintValue d 0) && (uintValue d 0 <=? 2 ^ 63 - 1)
    then Some (uintValue d 0) else None.
Proof.
  intros Hd. destruct d; [done|..];
    unfold strconv_Atoi;
    (match goal with
     | |- context [NilEmpty.string_of_uint ?u] =>
         pose proof (parse_digits_uint u 0) as Hparse
     end);
    simpl in *; rewrite Hparse; done.
Qed.

Lemma Atoi_minus_digits d :
  d ≠ Decimal.Nil →
  strconv_Atoi (String "-" (NilEmpty.string_of_uint d))
  = if (- 2 ^ 63 <=? - uintValue d 0) && (- uintValue d 0 <=? 2 ^ 63 - 1)
    then Some (- uintValue d 0) else None.
Proof.
  intros Hd. unfold strconv_Atoi. rewrite parse_digits_uint.
  destruct (NilEmpty.string_of_uint d) eqn:Hs; [by destruct d|done].
Qed.

(** [strconv.Atoi] reads back what [strconv.Itoa] writes, for every
    value of the 64-bit [int]. *)
Theorem Atoi_Itoa z (Hrange : inInt z) : strconv_Atoi (strconv_Itoa z) = Some z.
Proof.
  unfold inInt in Hrange. unfold strconv_Itoa. destruct z as [|p|p]; simpl.
  - done.
  - unfold NilZero.string_of_uint.
    pose proof (DecimalPos.Unsigned.to_uint_nonnil p) as Hnil.
    destruct (Pos.to_uint p) eqn:Hu; [done|..]; rewrite <- Hu in *;
      rewrite Atoi_digits, to_uint_value by done;
      (destruct (Z.leb_spec (- 2 ^ 63) (Z.pos p)); [|lia]);
      (destruct (Z.leb_spec (Z.pos p) (2 ^ 63 - 1)); [done|lia]).
  - unfold NilZero.string_of_uint.
    pose proof (DecimalPos.Unsigned.to_uint_nonnil p) as Hnil.
    destruct (Pos.to_uint p) eqn:Hu; [done|..]; rewrite <- Hu in *;
      rewrite Atoi_minus_digits, to_uint_value by done;
      (destruct (Z.leb_spec (- 2 ^ 63) (- Z.pos p)); [|lia]);
      (destruct (Z.leb_spec (- Z.pos p) (2 ^ 63 - 1)); [done|lia]).
Qed.

Lemma Atoi_Itoa_witness : inInt 42 ∧ strconv_Atoi (strconv_Itoa 42) = Some 42.
Proof. split; [unfold inInt; lia | apply (Atoi_Itoa 42); unfold inInt; lia]. Defined.

(** ** What createContainer creates *)

Section CreationMore.
Context {W : Type} (K : Constants) (L : Libs) (R : Runtime W).
Implicit Types w : W.

Lemma fetchImage_calls_only d image alwaysFetch creds out w :
  Forall (λ c, fetchCall c = true)
         (calls (fetchImage L R d image alwaysFetch creds out w)).
Proof.
  unfold fetchImage. run_simpl. constructor; [done|].
  destruct (registry_GetRegistry L image) as [regName|]; run_simpl; [|done].
  destruct (json_Marshal_auth L _) as [buf|]; run_simpl; [|done].
  destruct (registry_GetImageTagOrDigest L image) as [tag|]; run_simpl; [|done].
  constructor; [done|].
  destruct (on_ImageList R _ _).1 as [img|]; run_simpl; [|done].
  destruct (_ || _ || _); run_simpl; [|done].
  constructor; [done|].
  destruct (on_ImagePull R _ _ _).1 as [reader|]; run_simpl; [|done].
  by repeat constructor.
Qed.

Lemma appendVolumeMounts_Some vols mounts mounts' :
  appendVolumeMounts vols mounts = Some mounts' →
  mounts' = mounts ++ tmpfsMounts vols ∧ Forall (λ vol, is_Some (TmpFS vol)) vols.
Proof.
  revert mounts. induction vols as [|vol rest IH]; intros mounts; simpl.
  { intros [= <-]. by rewrite app_nil_r. }
  unfold tmpfsMounts. csimpl.
  destruct (TmpFS vol) as [tmpfs|] eqn:Htmpfs; [|done]. csimpl.
  intros (-> & Hall)%IH. rewrite <- app_assoc. split; [done|].
  constructor; [by rewrite Htmpfs|done].
Qed.

(** What [createContainer] asks the runtime to create, when it gets
    that far. *)
Lemma createContainer_creates d index podConfig main tv pv out w config hostConfig :
  In (ContainerCreate config hostConfig)
     (calls (createContainer K L R d index podConfig main tv pv out w)) →
  ∃ cc, Containers podConfig !! index = Some cc ∧
        config = {| Entrypoint := Cmd cc;
                    cEnv := makeEnvSlice (Env cc);
                    cWorkingDir := WorkingDir cc;
                    cImage := Image cc;
                    cTty := true;
                    cLabels := containerLabels K d podConfig index
                                 (containerName K cc index) |} ∧
        Forall (λ vol, is_Some (TmpFS vol)) (Volumes cc) ∧
        HostMounts hostConfig
        = podMounts K podConfig (containerName K cc index) tv pv
          ++ tmpfsMounts (Volumes cc) ∧
        HostPrivileged hostConfig = Privileged cc ∧
        Binds hostConfig = [].
Proof.
  unfold createContainer. destruct (Containers podConfig !! index) as [cc|]; [|done].
  rewrite calls_bind. intros [Hin|Hin]%in_app_or.
  { pose proof (fetchImage_calls_only d (Image cc) true (pcDockerConfig podConfig) out w)
      as Hfetch.
    rewrite Forall_forall in Hfetch. apply list_elem_of_In, Hfetch in Hin. done. }
  destruct (result (fetchImage _ _ _ _ _ _ _ _)); [|done..].
  destruct (appendVolumeMounts _ _) as [mounts|] eqn:Hmounts; [|done].
  apply appendVolumeMounts_Some in Hmounts as [-> Hall].
  rewrite calls_try in Hin. destruct Hin as [[= <- <-]|[]].
  exists cc. by repeat split.
Qed.

(** The labels stamped on a created container are the ones the driver
    later looks for, provided the label keys are pairwise different and
    the index fits an [int]: the container carries every label of the
    search that [NewPod] lists with, [GetPods] takes it for a container
    of this executor and of this pod, and its index label parses back to
    its index. *)
Theorem created_container_is_found_again d index podConfig main tv pv out w
    config hostConfig
    (Hkeys : distinctKeys K)
    (Hindex : inInt (Z.of_nat index))
    (Hcreated : In (ContainerCreate config hostConfig)
                   (calls (createContainer K L R d index podConfig main tv pv out w))) :
  (∀ k v, searchLabelsOf K d podConfig !! k = Some v → cLabels config !! k = Some v) ∧
  ownerPodID K d (cLabels config) = Some (pcID podConfig) ∧
  cLabels config !! containerIndexKey K ≫= strconv_Atoi = Some (Z.of_nat index).
Proof.
  destruct (createContainer_creates _ _ _ _ _ _ _ _ _ _ Hcreated)
    as (cc & _ & -> & _). simpl.
  unfold distinctKeys in Hkeys.
  repeat match goal with
         | H : NoDup (_ :: _) |- _ => apply NoDup_cons in H as [? H]
         end.
  repeat match goal with
         | H : _ ∉ _ :: _ |- _ => apply not_elem_of_cons in H as [? H]
         end.
  unfold containerLabels, searchLabelsOf, ownerPodID. repeat split.
  - intros k v Hk.
    destruct (decide (k = containerNameKey K)) as [->|?];
      [by rewrite !lookup_insert_ne, lookup_empty in Hk|].
    destruct (decide (k = containerIndexKey K)) as [->|?];
      [by rewrite !lookup_insert_ne, lookup_empty in Hk|].
    by rewrite !(lookup_insert_ne _ _ k) by done.
  - rewrite !(lookup_insert_ne _ _ (executorIDKey K)) by done.
    rewrite lookup_insert_eq. rewrite bool_decide_eq_false_2 by (by intros []).
    rewrite !(lookup_insert_ne _ _ (podIDKey K)) by done.
    by rewrite lookup_insert_eq.
  - rewrite lookup_insert_ne by done. rewrite lookup_insert_eq. simpl.
    by apply Atoi_Itoa.
Qed.

(** The mounts of a created container: a container with a name (the
    first one is named after the main container when it has no name of
    its own) gets the toolbox volume, read-only, at the init volume
    directory and the project volume at the project directory, before
    its tmpfs mounts; a container without a name gets its tmpfs mounts
    only.  No container is created with a volume entry that is not a
    tmpfs. *)
Theorem created_container_mounts d index podConfig main tv pv out w config hostConfig
    (Hcreated : In (ContainerCreate config hostConfig)
                   (calls (createContainer K L R d index podConfig main tv pv out w))) :
  ∃ cc name,
    Containers podConfig !! index = Some cc ∧
    name = (if bool_decide (Name cc = "") && bool_decide (index = 0%nat)
            then mainContainerName K else Name cc) ∧
    Forall (λ vol, is_Some (TmpFS vol)) (Volumes cc) ∧
    HostMounts hostConfig
    = (if decide (name = "") then []
       else [ {| mType := TypeVolume; mSource := VolumeName tv;
                 mTarget := InitVolumeDir podConfig; mReadOnly := true;
                 mTmpfsSizeBytes := None |};
              {| mType := TypeVolume; mSource := VolumeName pv;
                 mTarget := defaultProjectDir K; mReadOnly := false;
                 mTmpfsSizeBytes := None |} ])
      ++ tmpfsMounts (Volumes cc).
Proof.
  destruct (createContainer_creates _ _ _ _ _ _ _ _ _ _ Hcreated)
    as (cc & Hcc & _ & Hall & Hmounts & _).
  exists cc, (containerName K cc index). repeat split; try done.
  rewrite Hmounts. unfold podMounts. by case_bool_decide; case_decide.
Qed.
End CreationMore.

(** ** What NewPod leaves behind *)

Section Leftovers.
Context {W : Type} (K : Constants) (L : Libs) (R : Runtime W).
Implicit Types w : W.

Lemma fetchCall_harmless c :
  fetchCall c = true →
  teardownCall c = false ∧ containerRemoval c = false ∧
  ∀ cid dst ar, c ≠ CopyToContainer cid dst ar.
Proof. by destruct c. Qed.

Lemma no_teardown_forallb (cs : list Call) :
  forallb (λ c, negb (teardownCall c)) cs = true →
  Forall (λ c, teardownCall c = false) cs.
Proof.
  induction cs as [|c cs IH]; simpl; [constructor|].
  intros [Hc Hcs]%andb_true_iff. constructor; [|auto].
  by apply negb_true_iff.
Qed.

Lemma removal_existsb (cs : list Call) :
  Exists (λ c, containerRemoval c = true) cs ↔ existsb containerRemoval cs = true.
Proof.
  induction cs as [|c cs IH]; simpl.
  { rewrite Exists_nil. split; [done|discriminate]. }
  rewrite Exists_cons, orb_true_iff, IH. done.
Qed.

(** The calls of [createToolboxVolume] after its image fetch. *)
Lemma createToolboxVolume_after_fetch d podID out w :
  ∃ rest,
    calls (createToolboxVolume K L R d podID out w)
    = calls (fetchImage L R d (initImage d) false (initDockerConfig d) out w) ++ rest ∧
    forallb (λ c, negb (teardownCall c)) rest = true ∧
    (existsb containerRemoval rest = true
     ↔ ∃ v, result (createToolboxVolume K L R d podID out w) = Ok v) ∧
    (∀ cid dst ar, In (CopyToContainer cid dst ar) rest → In (archive_Close ar) rest).
Proof.
  unfold createToolboxVolume. rewrite calls_bind, result_bind.
  destruct (result (fetchImage _ _ _ _ _ _ _ _)) as [[]|e|msg].
  2,3: exists []; split; [done|]; split; [done|]; split;
         [split; [discriminate|by intros [? ?]] | by intros ??? []].
  eexists. split; [reflexivity|]. run_simpl.
  destruct (on_VolumeCreate R _ _ _).1 as [toolboxVol|]; run_simpl.
  2: { split; [done|]. split; [split; [discriminate|by intros [? ?]]|].
       intros ??? Hin. simpl in Hin. intuition discriminate. }
  destruct (on_ContainerCreate R _ _ _).1 as [containerID|]; run_simpl.
  2: { split; [done|]. split; [split; [discriminate|by intros [? ?]]|].
       intros ??? Hin. simpl in Hin. intuition discriminate. }
  destruct (on_ContainerStart R _ _).1; run_simpl.
  2: { split; [done|]. split; [split; [discriminate|by intros [? ?]]|].
       intros ??? Hin. simpl in Hin. intuition discriminate. }
  destruct (toolboxExecPath L _ _) as [execPath|]; run_simpl.
  2: { split; [done|]. split; [split; [discriminate|by intros [? ?]]|].
       intros ??? Hin. simpl in Hin. intuition discriminate. }
  destruct (on_CopyInfoSourcePath R _ _).1 as [srcInfo|]; run_simpl.
  2: { split; [done|]. split; [split; [discriminate|by intros [? ?]]|].
       intros ??? Hin. simpl in Hin. intuition discriminate. }
  destruct (on_TarResource R _ _ _).1 as [srcArchive|]; run_simpl.
  2: { split; [done|]. split; [split; [discriminate|by intros [? ?]]|].
       intros ??? Hin. simpl in Hin. intuition discriminate. }
  destruct (on_CopyToContainer R _ _ _ _).1; run_simpl.
  - split; [done|]. split; [split; [by eexists|done]|].
    intros cid dst ar Hin. simpl in Hin.
    repeat (destruct Hin as [Heq|Hin]; [try discriminate|]); [|done].
    injection Heq as <- <- <-. simpl. auto 10.
  - split; [done|]. split; [split; [discriminate|by intros [? ?]]|].
    intros cid dst ar Hin. simpl in Hin.
    repeat (destruct Hin as [Heq|Hin]; [try discriminate|]); [|done].
    injection Heq as <- <- <-. simpl. auto 10.
Qed.

(** The helper container that seeds the toolbox volume is removed exactly
    in the runs that return the volume.  In a run that fails after the
    helper was created, the helper and the volume stay: no container is
    removed, and no run removes a volume.  The archive of the toolbox is
    closed in every run that got to copy it. *)
Theorem createToolboxVolume_cleanup d podID out w :
  let run := createToolboxVolume K L R d podID out w in
  (Exists (λ c, containerRemoval c = true) (calls run) ↔ ∃ v, result run = Ok v) ∧
  Forall (λ c, teardownCall c = false) (calls run) ∧
  (∀ cid dst ar, In (CopyToContainer cid dst ar) (calls run) →
                 In (archive_Close ar) (calls run)).
Proof.
  intros run. unfold run.
  destruct (createToolboxVolume_after_fetch d podID out w)
    as (rest & -> & Hteardown & Hremoval & Hclose).
  pose proof (fetchImage_calls_only L R d (initImage d) false (initDockerConfig d) out w)
    as Hfetch.
  rewrite Forall_forall in Hfetch.
  split; [|split].
  - rewrite <- Hremoval, <- removal_existsb, Exists_app. split; [|by right].
    intros [Hex|?]; [|done]. apply Exists_exists in Hex as (c & Hc & Hrm).
    destruct (fetchCall_harmless c (Hfetch c Hc)) as (_ & Hno & _). congruence.
  - apply Forall_app. split; [|by apply no_teardown_forallb].
    apply Forall_forall. intros c Hc. by destruct (fetchCall_harmless c (Hfetch c Hc)).
  - intros cid dst ar [Hin|Hin]%in_app_or; apply in_or_app; [|right; by eapply Hclose].
    apply list_elem_of_In in Hin.
    destruct (fetchCall_harmless _ (Hfetch _ Hin)) as (_ & _ & Hne).
    by destruct (Hne cid dst ar).
Qed.

Lemma fetchImage_keeps d image alwaysFetch creds out w :
  Forall keeps (calls (fetchImage L R d image alwaysFetch creds out w)).
Proof.
  eapply Forall_impl; [apply fetchImage_calls_only|].
  intros c Hc. by destruct (fetchCall_harmless c Hc) as (? & ? & _).
Qed.

Lemma createContainer_keeps d index podConfig main tv pv out w :
  Forall keeps (calls (createContainer K L R d index podConfig main tv pv out w)).
Proof.
  unfold createContainer. destruct (Containers podConfig !! index) as [cc|]; [|constructor].
  rewrite calls_bind. apply Forall_app. split; [apply fetchImage_keeps|].
  destruct (result (fetchImage _ _ _ _ _ _ _ _)); [|constructor..].
  destruct (appendVolumeMounts _ _); [|constructor].
  rewrite calls_try. by repeat constructor.
Qed.

Lemma startContainers_keeps d podConfig tv pv out cindexes main w :
  Forall keeps (calls (startContainers K L R d podConfig tv pv out cindexes main w)).
Proof.
  revert main w. induction cindexes as [|i rest IH]; intros main w; [constructor|].
  simpl. rewrite calls_bind. apply Forall_app. split; [apply createContainer_keeps|].
  destruct (result (createContainer _ _ _ _ _ _ _ _ _ _ _)) as [cid| |]; [|constructor..].
  rewrite calls_bind, calls_try. apply Forall_app. split; [by repeat constructor|].
  destruct (result (try _ _ _)); [apply IH|constructor..].
Qed.

Lemma rediscover_keeps d podConfig tv pv w :
  Forall keeps (calls (rediscover K R d podConfig tv pv w)).
Proof.
  unfold rediscover. rewrite calls_bind, calls_try. apply Forall_app.
  split; [by repeat constructor|].
  destruct (result (try _ _ _)); [|constructor..].
  case_bool_decide; constructor.
Qed.

(** [NewPod] never rolls back.  In no run does it stop a container or
    remove a volume, and after the seeding of the toolbox volume (which
    removes its own helper container) it removes no container either:
    whatever a failing run has created stays in the runtime. *)
Theorem NewPod_never_rolls_back d podConfig out w :
  let run := NewPod K L R d podConfig out w in
  Forall (λ c, teardownCall c = false) (calls run) ∧
  ∃ rest,
    calls run
    = (if decide (Containers podConfig = []) then []
       else calls (createToolboxVolume K L R d (pcID podConfig) out w)) ++ rest ∧
    Forall (λ c, containerRemoval c = false) rest.
Proof.
  intros run.
  assert (∃ rest,
            calls run
            = (if decide (Containers podConfig = []) then []
               else calls (createToolboxVolume K L R d (pcID podConfig) out w)) ++ rest ∧
            Forall keeps rest) as (rest & Hcalls & Hkeeps).
  { unfold run, NewPod. case_bool_decide as Hlen; case_decide as Hnil.
    - by exists [].
    - by apply length_zero_iff_nil in Hlen.
    - by rewrite Hnil in Hlen.
    - unfold preparePod. rewrite !calls_bind.
      rewrite <- app_assoc. eexists. split; [reflexivity|].
      rewrite !result_bind.
      destruct (result (createToolboxVolume _ _ _ _ _ _ _)) as [tv| |];
        [|simpl; constructor..].
      rewrite !calls_bind. unfold createProjectVolume at 1. rewrite calls_try.
      simpl. constructor; [done|].
      rewrite result_bind.
      destruct (result (createProjectVolume _ _ _ _ _ _)) as [pv| |];
        [|simpl; constructor..].
      rewrite calls_bind, result_bind. rewrite <- app_assoc.
      apply Forall_app. split; [apply startContainers_keeps|].
      destruct (result (startContainers _ _ _ _ _ _ _ _ _ _ _)) as [mainID| |];
        [|simpl; constructor..].
      simpl. apply rediscover_keeps. }
  split.
  - rewrite Hcalls. apply Forall_app. split.
    + case_decide; [constructor|]. apply (createToolboxVolume_cleanup d).
    + eapply Forall_impl; [exact Hkeeps|]. by intros c [? _].
  - exists rest. split; [done|].
    eapply Forall_impl; [exact Hkeeps|]. by intros c [_ ?].
Qed.
End Leftovers.

(** ** Rehydration, continued *)

Section RehydrationMore.
Context {W : Type} (K : Constants) (R : Runtime W).
Implicit Types (w : W) (podsMap : gmap string DockerPod).

(** One round of the second loop, in a run that does not panic. *)
Lemma fillPods_cons_ok d c rest podsMap podsMap' :
  fillPods K d (c :: rest) podsMap = Ok podsMap' →
  (ownerPodID K d (Labels c) = None ∧ fillPods K d rest podsMap = Ok podsMap') ∨
  (∃ podID z pod,
     ownerPodID K d (Labels c) = Some podID ∧
     indexOf K c = Some z ∧
     podsMap !! podID = Some pod ∧
     fillPods K d rest (<[podID := stepPod K pod c z]> podsMap) = Ok podsMap').
Proof.
  simpl. destruct (ownerPodID K d (Labels c)) as [podID|]; [|by left].
  intros Hfill. right. exists podID. unfold indexOf, stepPod.
  destruct (Labels c !! containerIndexKey K) as [s|] eqn:Hlabel; simpl in *.
  2: { by rewrite ?lookup_delete_eq in Hfill. }
  destruct (strconv_Atoi s) as [z|] eqn:Hparse; simpl in *.
  2: { by rewrite ?lookup_delete_eq in Hfill. }
  destruct (podsMap !! podID) as [pod|] eqn:Hpod; [|done].
  by exists z, pod.
Qed.

Lemma fillPods_cons_indexed d c rest podsMap podID z pod :
  ownerPodID K d (Labels c) = Some podID →
  indexOf K c = Some z →
  podsMap !! podID = Some pod →
  fillPods K d (c :: rest) podsMap
  = fillPods K d rest (<[podID := stepPod K pod c z]> podsMap).
Proof.
  intros Hown Hidx Hpod. simpl. rewrite Hown. unfold indexOf, stepPod in *.
  destruct (Labels c !! containerIndexKey K) as [s|]; simpl in *; [|done].
  rewrite Hidx. simpl. by rewrite Hpod.
Qed.

Lemma collectPods_dom d listed podsMap :
  dom podsMap ⊆ dom (collectPods K d listed podsMap) ∧
  ∀ c podID, c ∈ listed → ownerPodID K d (Labels c) = Some podID →
             podID ∈ dom (collectPods K d listed podsMap).
Proof.
  revert podsMap. induction listed as [|c rest IH]; intros podsMap; simpl.
  { split; [done|]. intros c podID Hc. by apply elem_of_nil in Hc. }
  destruct (ownerPodID K d (Labels c)) as [podID|] eqn:Hown.
  - destruct (podsMap !! podID) as [pod|] eqn:Hpod.
    + destruct (IH podsMap) as [Hsub Hall]. split; [done|].
      intros c' podID' [->|Hc']%elem_of_cons Hown'; [|by eapply Hall].
      simplify_eq. apply Hsub. apply elem_of_dom. by eexists.
    + destruct (IH (<[podID := emptyPod d podID]> podsMap)) as [Hsub Hall]. split.
      * etrans; [|exact Hsub]. rewrite dom_insert_L. apply union_subseteq_r.
      * intros c' podID' [->|Hc']%elem_of_cons Hown'; [|by eapply Hall].
        simplify_eq. apply Hsub. rewrite dom_insert_L.
        apply elem_of_union. left. by apply elem_of_singleton.
  - destruct (IH podsMap) as [Hsub Hall]. split; [done|].
    intros c' podID' [->|Hc']%elem_of_cons Hown'; [congruence|by eapply Hall].
Qed.

(** The second loop runs through when every container of this executor
    that has a pod label has an index, and the map has the pod of each. *)
Lemma fillPods_runs d listed podsMap :
  (∀ c podID, c ∈ listed → ownerPodID K d (Labels c) = Some podID →
              is_Some (indexOf K c) ∧ podID ∈ dom podsMap) →
  ∃ podsMap', fillPods K d listed podsMap = Ok podsMap'.
Proof.
  revert podsMap. induction listed as [|c rest IH]; intros podsMap Hall; [by eexists|].
  destruct (ownerPodID K d (Labels c)) as [podID|] eqn:Hown.
  - destruct (Hall c podID) as [[z Hz] [pod Hpod]%elem_of_dom]; [by left|done|].
    rewrite (fillPods_cons_indexed d c rest podsMap podID z pod) by done.
    apply IH. intros c' podID' Hc' Hown'.
    destruct (Hall c' podID') as [? ?]; [by right|done|]. split; [done|].
    rewrite dom_insert_L. apply elem_of_union. by right.
  - simpl. rewrite Hown. apply IH. intros c' podID' Hc' Hown'.
    apply Hall; [by right|done].
Qed.

(** [GetPods] returns pods exactly when both listings succeed and every
    listed container of this executor that carries a pod label also
    carries an index label that parses; it asks the runtime for nothing
    but the two listings. *)
Theorem GetPods_returns_iff_all_indexed d all w listed volumes
    (Hlisted : (on_ContainerList R ∅ all w).1 = Done listed)
    (Hvolumes : (on_VolumeList R ∅ (on_ContainerList R ∅ all w).2).1 = Done volumes) :
  ((∃ pods, result (GetPods K R d all w) = Ok pods)
   ↔ ∀ c, c ∈ listed → is_Some (ownerPodID K d (Labels c)) → is_Some (indexOf K c)) ∧
  calls (GetPods K R d all w) = [ContainerList ∅ all; VolumeList ∅].
Proof.
  split.
  - rewrite GetPods_result, Hlisted, Hvolumes. unfold groupPods. split.
    + intros [pods Hpods] c Hc [podID Hown].
      destruct (indexOf K c) as [z|] eqn:Hidx; [by eexists|].
      by rewrite (fillPods_unindexed K d listed _ c podID) in Hpods.
    + intros Hall.
      destruct (fillPods_runs d listed (collectPods K d listed ∅)) as [podsMap' ->];
        [|by eexists].
      intros c podID Hc Hown. split; [apply Hall; [done|by eexists]|].
      by eapply (collectPods_dom d listed ∅).
  - unfold GetPods. run_simpl. rewrite Hlisted. run_simpl.
    rewrite Hvolumes. by run_simpl.
Qed.

Lemma fillPods_invariant d (P : string → DockerPod → Prop) all :
  (∀ podID pod c z,
     c ∈ all → ownerPodID K d (Labels c) = Some podID → indexOf K c = Some z →
     P podID pod → P podID (stepPod K pod c z)) →
  ∀ listed podsMap podsMap',
    listed ⊆ all →
    map_Forall P podsMap →
    fillPods K d listed podsMap = Ok podsMap' →
    map_Forall P podsMap'.
Proof.
  intros Hstep listed. induction listed as [|c rest IH]; intros podsMap podsMap' Hsub HP Hfill.
  { simpl in Hfill. by simplify_eq. }
  assert (c ∈ all) as Hc by (apply Hsub; left).
  assert (rest ⊆ all) as Hrest by (intros x Hx; apply Hsub; by right).
  apply fillPods_cons_ok in Hfill
    as [[_ Hfill]|(podID & z & pod & Hown & Hidx & Hpod & Hfill)].
  - by eapply IH.
  - eapply IH; [done| |exact Hfill].
    apply map_Forall_insert_2; [|done]. apply Hstep; try done. by apply (HP podID).
Qed.

Lemma containers_stepPod pod c z :
  containers (stepPod K pod c z)
  = containers pod ++ [ {| Index := z; dcContainer := sortMounts c |} ].
Proof.
  unfold stepPod. case_bool_decide; simpl; by rewrite containers_addContainer.
Qed.

Lemma containersMap_addContainer pod c dc :
  containersMap (addContainer K pod c dc)
  = match Labels c !! containerNameKey K with
    | Some name =>
        if bool_decide (name ≠ "") then <[name := dc]> (containersMap pod)
        else containersMap pod
    | None => containersMap pod
    end.
Proof. unfold addContainer. by repeat case_match. Qed.

Lemma containersMap_stepPod pod c z :
  containersMap (stepPod K pod c z)
  = containersMap (addContainer K pod c {| Index := z; dcContainer := sortMounts c |}).
Proof. unfold stepPod. by case_bool_decide. Qed.

Lemma addContainer_fields pod c dc :
  id (addContainer K pod c dc) = id pod ∧
  labels (addContainer K pod c dc) = labels pod ∧
  toolboxVolumeName (addContainer K pod c dc) = toolboxVolumeName pod ∧
  projectVolumeName (addContainer K pod c dc) = projectVolumeName pod ∧
  podExecutorID (addContainer K pod c dc) = podExecutorID pod ∧
  initVolumeDir (addContainer K pod c dc) = initVolumeDir pod.
Proof. unfold addContainer. by repeat case_match. Qed.

Lemma stepPod_fields pod c z :
  id (stepPod K pod c z) = id pod ∧
  toolboxVolumeName (stepPod K pod c z) = toolboxVolumeName pod ∧
  projectVolumeName (stepPod K pod c z) = projectVolumeName pod ∧
  podExecutorID (stepPod K pod c z) = podExecutorID pod ∧
  initVolumeDir (stepPod K pod c z) = initVolumeDir pod ∧
  labels (stepPod K pod c z)
  = if bool_decide (z = 0) then Some (podLabelsOf K (Labels c)) else labels pod.
Proof.
  unfold stepPod.
  destruct (addContainer_fields pod c {| Index := z; dcContainer := sortMounts c |})
    as (? & ? & ? & ? & ? & ?).
  by case_bool_decide.
Qed.

Lemma rehydrated_step d listed podID pod c z :
  c ∈ listed → ownerPodID K d (Labels c) = Some podID → indexOf K c = Some z →
  rehydrated K d listed podID pod →
  rehydrated K d listed podID (stepPod K pod c z).
Proof.
  intros Hc Hown Hidx (Hid & Hex & Hdir & Hmem & Hnames & Hlab & Hnolab).
  set (dc := {| Index := z; dcContainer := sortMounts c |}).
  assert (memberOf K d listed podID dc) as Hdc by (by exists c).
  destruct (stepPod_fields pod c z) as (Hid' & _ & _ & Hex' & Hdir' & Hlab').
  unfold rehydrated.
  rewrite Hid', Hex', Hdir', Hlab', containers_stepPod, containersMap_stepPod,
    containersMap_addContainer.
  fold dc. split; [done|]. split; [done|]. split; [done|]. split; [|split; [|split]].
  - intros dc' [?|Heq%list_elem_of_singleton]%elem_of_app; [auto|by subst].
  - intros name dc'.
    assert (containersMap pod !! name = Some dc' →
            name ≠ "" ∧ dc' ∈ containers pod ++ [dc] ∧
            Labels (dcContainer dc') !! containerNameKey K = Some name) as Hold.
    { intros (? & ? & ?)%Hnames. repeat split; [done| |done].
      apply elem_of_app. by left. }
    destruct (Labels c !! containerNameKey K) as [name'|] eqn:Hname; [|done].
    destruct (decide (name' = "")) as [->|Hne].
    { by rewrite bool_decide_eq_false_2 by (intros Hn; by apply Hn). }
    rewrite bool_decide_eq_true_2 by done.
    destruct (decide (name' = name)) as [->|Hdiff].
    + rewrite lookup_insert_eq. intros [= <-]. repeat split; [done| |done].
      apply elem_of_app. right. by apply list_elem_of_singleton.
    + by rewrite lookup_insert_ne.
  - intros m. destruct (decide (z = 0)) as [Hz|Hz];
      [rewrite bool_decide_eq_true_2 by done|rewrite bool_decide_eq_false_2 by done].
    + intros [= <-]. exists dc. repeat split; [|done].
      apply elem_of_app. right. by apply list_elem_of_singleton.
    + intros Hm. destruct (Hlab m Hm) as (dc' & ? & ? & ?).
      exists dc'. repeat split; [|done..]. apply elem_of_app. by left.
  - destruct (decide (z = 0)) as [Hz|Hz];
      [by rewrite bool_decide_eq_true_2 by done|rewrite bool_decide_eq_false_2 by done].
    intros Hnone dc' [?|Heq%list_elem_of_singleton]%elem_of_app;
      [by apply Hnolab|by subst].
Qed.

Lemma rehydrated_sorted d listed podID pod :
  rehydrated K d listed podID pod →
  rehydrated K d listed podID
    (setContainers pod (slices_SortFunc ContainersByIndexSortFunc (containers pod))).
Proof.
  intros (Hid & Hex & Hdir & Hmem & Hnames & Hlab & Hnolab).
  unfold rehydrated. simpl.
  assert (∀ dc, dc ∈ slices_SortFunc ContainersByIndexSortFunc (containers pod)
                ↔ dc ∈ containers pod) as Hperm.
  { intros dc. by rewrite slices_SortFunc_perm. }
  repeat split; try done.
  - intros dc Hdc%Hperm. auto.
  - by destruct (Hnames name dc) as (? & ? & ?).
  - destruct (Hnames name dc) as (? & ? & ?); [done|]. by apply Hperm.
  - by destruct (Hnames name dc) as (? & ? & ?).
  - intros m Hm. destruct (Hlab m Hm) as (dc & ? & ? & ?). exists dc.
    repeat split; [by apply Hperm|done..].
  - intros Hnone dc Hdc%Hperm. by apply Hnolab.
Qed.

(** The pods [groupPods] returns are the sorted pods of the map the
    loops have built. *)
Lemma groupPods_ok d listed volumes pods :
  groupPods K d listed volumes = Ok pods →
  ∃ filled,
    fillPods K d listed (collectPods K d listed ∅) = Ok filled ∧
    pods = sortedPods (attachVolumes K d volumes filled).
Proof.
  unfold groupPods.
  destruct (fillPods K d listed _) as [filled| |]; [|done..].
  intros [= <-]. by exists filled.
Qed.

Lemma filled_rehydrated d listed filled :
  fillPods K d listed (collectPods K d listed ∅) = Ok filled →
  map_Forall (rehydrated K d listed) filled.
Proof.
  intros Hfill.
  eapply (fillPods_invariant d (rehydrated K d listed) listed);
    [|reflexivity| |exact Hfill].
  - intros. by apply rehydrated_step.
  - apply collectPods_preserves; [|apply map_Forall_empty].
    intros podID. unfold rehydrated, emptyPod. simpl.
    split; [done|]. split; [done|]. split; [done|]. split; [|split; [|split]].
    + intros dc Hdc. by apply elem_of_nil in Hdc.
    + intros name dc Hlook. by rewrite lookup_empty in Hlook.
    + done.
    + intros _ dc Hdc. by apply elem_of_nil in Hdc.
Qed.

Lemma final_rehydrated d listed volumes filled :
  fillPods K d listed (collectPods K d listed ∅) = Ok filled →
  map_Forall (rehydrated K d listed) (attachVolumes K d volumes filled).
Proof.
  intros Hfill. apply attachVolumes_preserves; [done..|].
  by apply filled_rehydrated.
Qed.

Lemma groupPods_rehydrated d listed volumes pods pod :
  groupPods K d listed volumes = Ok pods →
  pod ∈ pods →
  rehydrated K d listed (id pod) pod ∧
  StronglySorted (λ a b, Index a <= Index b) (containers pod).
Proof.
  intros (filled & Hfill & ->)%groupPods_ok
         (podID & pod0 & Hpod0 & ->)%elem_of_sortedPods.
  pose proof (final_rehydrated d listed volumes filled Hfill podID pod0 Hpod0) as Hre.
  split.
  - simpl. destruct Hre as [Hid ?]. rewrite Hid. apply rehydrated_sorted.
    by split.
  - simpl. apply slices_SortFunc_sorted, ContainersByIndexSortFunc_key.
Qed.

Lemma sortedPods_ids podsMap :
  map_Forall (λ podID pod, id pod = podID) podsMap →
  NoDup (id <$> sortedPods podsMap).
Proof.
  intros Hids. unfold sortedPods. rewrite <- list_fmap_compose.
  assert ((id ∘ (λ kp : string * DockerPod,
                   setContainers kp.2
                     (slices_SortFunc ContainersByIndexSortFunc (containers kp.2))))
            <$> map_to_list podsMap
          = (map_to_list podsMap).*1) as ->.
  { apply list_fmap_ext. intros i [podID pod] Hin%list_elem_of_lookup_2.
    apply elem_of_map_to_list in Hin. simpl. by apply Hids. }
  apply NoDup_fst_map_to_list.
Qed.

(** How [GetPods] groups the listed containers.  Every pod it returns
    belongs to this executor and has no init volume directory; its
    members are listed containers of this executor that carry its pod ID,
    each with the index its label declares, in ascending order of index;
    no two pods have the same ID. *)
Theorem GetPods_groups_by_pod d all w listed volumes pods
    (Hlisted : (on_ContainerList R ∅ all w).1 = Done listed)
    (Hvolumes : (on_VolumeList R ∅ (on_ContainerList R ∅ all w).2).1 = Done volumes)
    (Hpods : result (GetPods K R d all w) = Ok pods) :
  NoDup (id <$> pods) ∧
  ∀ pod, pod ∈ pods →
    podExecutorID pod = executorID d ∧
    initVolumeDir pod = "" ∧
    StronglySorted (λ a b, Index a <= Index b) (containers pod) ∧
    ∀ dc, dc ∈ containers pod →
      ∃ c, c ∈ listed ∧
           Labels c !! executorIDKey K = Some (executorID d) ∧
           Labels c !! podIDKey K = Some (id pod) ∧
           indexOf K c = Some (Index dc) ∧
           dcContainer dc = sortMounts c.
Proof.
  rewrite GetPods_result, Hlisted, Hvolumes in Hpods. split.
  - destruct (groupPods_ok d listed volumes pods Hpods) as (filled & Hfill & ->).
    apply sortedPods_ids.
    eapply map_Forall_impl; [by apply final_rehydrated|]. by intros ?? [? _].
  - intros pod Hpod.
    destruct (groupPods_rehydrated d listed volumes pods pod Hpods Hpod)
      as [(_ & Hex & Hdir & Hmem & _) Hsorted].
    repeat split; try done.
    intros dc Hdc. destruct (Hmem dc Hdc) as (c & Hc & Hown & Hidx & Hdc').
    exists c. repeat split; try done.
    + revert Hown. unfold ownerPodID.
      destruct (Labels c !! executorIDKey K) as [e|]; [|done].
      case_bool_decide as He; [done|]. intros _. f_equal.
      by destruct (decide (e = executorID d)).
    + revert Hown. unfold ownerPodID.
      destruct (Labels c !! executorIDKey K) as [e|]; [|done].
      by case_bool_decide.
Qed.

Lemma grows_refl pod : grows pod pod.
Proof. by split. Qed.

Lemma grows_trans pod1 pod2 pod3 : grows pod1 pod2 → grows pod2 pod3 → grows pod1 pod3.
Proof. intros [? ?] [? ?]. split; by etrans. Qed.

Lemma grows_step pod c z : grows pod (stepPod K pod c z).
Proof.
  split.
  - rewrite containers_stepPod. by apply prefix_app_r.
  - rewrite containersMap_stepPod, containersMap_addContainer.
    destruct (Labels c !! containerNameKey K) as [name|]; [|done].
    destruct (bool_decide (name ≠ "")); [|done].
    rewrite dom_insert_L. apply union_subseteq_r.
Qed.

Lemma fillPods_grows d listed podsMap podsMap' podID pod :
  fillPods K d listed podsMap = Ok podsMap' →
  podsMap !! podID = Some pod →
  ∃ pod', podsMap' !! podID = Some pod' ∧ grows pod pod'.
Proof.
  revert podsMap pod. induction listed as [|c rest IH]; intros podsMap pod Hfill Hpod.
  { simpl in Hfill. simplify_eq. exists pod. split; [done|apply grows_refl]. }
  apply fillPods_cons_ok in Hfill
    as [[_ Hfill]|(podID' & z & pod0 & Hown & Hidx & Hpod0 & Hfill)].
  - by eapply IH.
  - destruct (decide (podID' = podID)) as [->|Hne].
    + assert (pod0 = pod) as -> by congruence.
      destruct (IH _ (stepPod K pod c z) Hfill) as (pod' & Hpod' & Hgrows).
      { by rewrite lookup_insert_eq. }
      exists pod'. split; [done|]. eapply grows_trans; [apply grows_step|done].
    + eapply IH; [exact Hfill|]. by rewrite lookup_insert_ne.
Qed.

Lemma fillPods_complete d listed podsMap podsMap' c podID :
  fillPods K d listed podsMap = Ok podsMap' →
  c ∈ listed →
  ownerPodID K d (Labels c) = Some podID →
  ∃ pod z,
    podsMap' !! podID = Some pod ∧
    indexOf K c = Some z ∧
    {| Index := z; dcContainer := sortMounts c |} ∈ containers pod ∧
    ∀ name, Labels c !! containerNameKey K = Some name → name ≠ "" →
            is_Some (containersMap pod !! name).
Proof.
  revert podsMap. induction listed as [|c' rest IH]; intros podsMap Hfill Hc Hown.
  { by apply elem_of_nil in Hc. }
  apply elem_of_cons in Hc as [<-|Hc].
  - apply fillPods_cons_ok in Hfill
      as [[Hnone _]|(podID' & z & pod0 & Hown' & Hidx & Hpod0 & Hfill)]; [congruence|].
    assert (podID' = podID) as -> by congruence.
    destruct (fillPods_grows d rest _ podsMap' podID (stepPod K pod0 c z) Hfill)
      as (pod & Hpod & Hprefix & Hdom).
    { by rewrite lookup_insert_eq. }
    exists pod, z. repeat split; [done..| |].
    + eapply elem_of_prefix; [|exact Hprefix]. rewrite containers_stepPod.
      apply elem_of_app. right. by apply list_elem_of_singleton.
    + intros name Hname Hne. apply elem_of_dom, Hdom.
      rewrite containersMap_stepPod, containersMap_addContainer, Hname.
      rewrite bool_decide_eq_true_2 by done. rewrite dom_insert_L.
      apply elem_of_union. left. by apply elem_of_singleton.
  - apply fillPods_cons_ok in Hfill
      as [[_ Hfill]|(podID' & z & pod0 & Hown' & Hidx & Hpod0 & Hfill)];
      by eapply IH.
Qed.

Lemma attachVolumes_lookup d vols podsMap podID pod :
  podsMap !! podID = Some pod →
  ∃ pod', attachVolumes K d vols podsMap !! podID = Some pod' ∧ sameMembers pod pod'.
Proof.
  revert podsMap pod. induction vols as [|vol rest IH]; intros podsMap pod Hpod; simpl.
  { exists pod. by split. }
  destruct (ownerPodID K d (VolumeLabels vol)) as [podID'|]; [|by apply IH].
  destruct (podsMap !! podID') as [pod0|] eqn:Hpod0; [|by apply IH].
  destruct (decide (podID' = podID)) as [->|Hne].
  - simplify_eq.
    match goal with
    | |- context [<[podID := ?p]> podsMap] =>
        destruct (IH (<[podID := p]> podsMap) p) as (pod' & Hpod' & Hsame);
        [by rewrite lookup_insert_eq|];
        assert (sameMembers pod p) as Hp by (by repeat case_match)
    end.
    exists pod'. split; [done|].
    destruct Hp as (? & ? & ? & ? & ? & ?), Hsame as (? & ? & ? & ? & ? & ?).
    repeat split; congruence.
  - apply IH. by rewrite lookup_insert_ne.
Qed.

Lemma sortedPods_elem podsMap podID pod :
  podsMap !! podID = Some pod →
  setContainers pod (slices_SortFunc ContainersByIndexSortFunc (containers pod))
  ∈ sortedPods podsMap.
Proof.
  intros Hpod. unfold sortedPods. apply list_elem_of_fmap.
  exists (podID, pod). split; [done|]. by apply elem_of_map_to_list.
Qed.

(** [GetPods] loses no container: every listed container of this
    executor that carries a pod label is a member of the returned pod
    with that ID, under the index its label declares, and when its name
    label is not empty the pod has a container under that name. *)
Theorem GetPods_keeps_every_container d all w listed volumes pods c podID
    (Hlisted : (on_ContainerList R ∅ all w).1 = Done listed)
    (Hvolumes : (on_VolumeList R ∅ (on_ContainerList R ∅ all w).2).1 = Done volumes)
    (Hpods : result (GetPods K R d all w) = Ok pods)
    (Hc : c ∈ listed)
    (Hexecutor : Labels c !! executorIDKey K = Some (executorID d))
    (Hpod : Labels c !! podIDKey K = Some podID) :
  ∃ pod dc,
    pod ∈ pods ∧ id pod = podID ∧
    dc ∈ containers pod ∧
    dcContainer dc = sortMounts c ∧
    indexOf K c = Some (Index dc) ∧
    ∀ name, Labels c !! containerNameKey K = Some name → name ≠ "" →
            is_Some (containersMap pod !! name).
Proof.
  rewrite GetPods_result, Hlisted, Hvolumes in Hpods.
  destruct (groupPods_ok d listed volumes pods Hpods) as (filled & Hfill & ->).
  assert (ownerPodID K d (Labels c) = Some podID) as Hown.
  { unfold ownerPodID. rewrite Hexecutor. by rewrite bool_decide_eq_false_2 by (by intros []). }
  destruct (fillPods_complete d listed _ filled c podID Hfill Hc Hown)
    as (pod0 & z & Hpod0 & Hidx & Hin & Hnames).
  destruct (attachVolumes_lookup d volumes filled podID pod0 Hpod0)
    as (pod1 & Hpod1 & Hid & _ & Hcs & Hmap & _).
  pose proof (filled_rehydrated d listed filled Hfill podID pod0 Hpod0) as [Hid0 _].
  exists (setContainers pod1
            (slices_SortFunc ContainersByIndexSortFunc (containers pod1))),
         {| Index := z; dcContainer := sortMounts c |}.
  simpl. repeat split; try done.
  - by eapply sortedPods_elem.
  - congruence.
  - rewrite slices_SortFunc_perm, Hcs. done.
  - intros name Hname Hne. rewrite Hmap. by apply Hnames.
Qed.

Lemma podLabelsOf_lookup (m : gmap string string) k v :
  podLabelsOf K m !! k = Some v
  ↔ m !! k = Some v ∧ String.prefix (labelPrefix K) k = true ∧ k ≠ containerNameKey K.
Proof. unfold podLabelsOf. by rewrite map_lookup_filter_Some. Qed.

(** The name map and the labels of a pod that [GetPods] returns.  A name
    of the map is never empty and leads to a member that carries it as
    its name label.  The pod has labels exactly when it has a member with
    index 0, and they are the labels of such a member that start with the
    driver's prefix, without the container name label. *)
Theorem GetPods_names_and_labels d all w listed volumes pods pod
    (Hlisted : (on_ContainerList R ∅ all w).1 = Done listed)
    (Hvolumes : (on_VolumeList R ∅ (on_ContainerList R ∅ all w).2).1 = Done volumes)
    (Hpods : result (GetPods K R d all w) = Ok pods)
    (Hpod : pod ∈ pods) :
  (∀ name dc, containersMap pod !! name = Some dc →
              name ≠ "" ∧ dc ∈ containers pod ∧
              Labels (dcContainer dc) !! containerNameKey K = Some name) ∧
  (∀ m, labels pod = Some m →
        ∃ dc, dc ∈ containers pod ∧ Index dc = 0 ∧
              ∀ k v, m !! k = Some v
                     ↔ Labels (dcContainer dc) !! k = Some v ∧
                       String.prefix (labelPrefix K) k = true ∧
                       k ≠ containerNameKey K) ∧
  (labels pod = None ↔ ∀ dc, dc ∈ containers pod → Index dc ≠ 0).
Proof.
  rewrite GetPods_result, Hlisted, Hvolumes in Hpods.
  destruct (groupPods_rehydrated d listed volumes pods pod Hpods Hpod)
    as [(_ & _ & _ & _ & Hnames & Hlab & Hnolab) _].
  split; [done|]. split.
  - intros m Hm. destruct (Hlab m Hm) as (dc & Hdc & Hz & ->).
    exists dc. split; [done|]. split; [done|]. intros k v. apply podLabelsOf_lookup.
  - split; [done|]. intros Hnone.
    destruct (labels pod) as [m|] eqn:Hm; [|done].
    destruct (Hlab m eq_refl) as (dc & Hdc & Hz & _). by destruct (Hnone dc Hdc).
Qed.
End RehydrationMore.

(** ** The pod that [NewPod] hands back *)

Section NewPodMore.
Context {W : Type} (K : Constants) (L : Libs) (R : Runtime W).
Implicit Types w : W.

Lemma discover_names listed pod seenIndexes count pod' count' :
  discover K listed pod seenIndexes count = Ok (pod', count') →
  (id pod' = id pod ∧ labels pod' = labels pod ∧
   toolboxVolumeName pod' = toolboxVolumeName pod ∧
   projectVolumeName pod' = projectVolumeName pod ∧
   podExecutorID pod' = podExecutorID pod ∧
   initVolumeDir pod' = initVolumeDir pod) ∧
  (∀ name dc, containersMap pod' !! name = Some dc →
     containersMap pod !! name = Some dc ∨
     (name ≠ "" ∧ dc ∈ accepted K listed ∧
      Labels (dcContainer dc) !! containerNameKey K = Some name)) ∧
  (∀ name, is_Some (containersMap pod !! name) → is_Some (containersMap pod' !! name)) ∧
  (∀ dc name, dc ∈ accepted K listed →
     Labels (dcContainer dc) !! containerNameKey K = Some name → name ≠ "" →
     is_Some (containersMap pod' !! name)).
Proof.
  revert pod seenIndexes count.
  induction listed as [|c rest IH]; intros pod seen count Hok; simpl in Hok.
  { simplify_eq. split; [done|]. split; [by left|]. split; [done|].
    intros dc name Hdc. by apply elem_of_nil in Hdc. }
  unfold accepted, indexOf in *. simpl.
  destruct (Labels c !! containerIndexKey K) as [s|]; simpl; [|by apply IH in Hok].
  destruct (strconv_Atoi s) as [z|]; simpl; [|by apply IH in Hok].
  case_bool_decide as Hseen; [done|].
  apply IH in Hok as (Hfields & Hsound & Hmono & Hcomplete).
  set (dc0 := {| Index := z; dcContainer := sortMounts c |}) in *.
  pose proof (addContainer_fields K pod c dc0) as Hstep.
  pose proof (containersMap_addContainer K pod c dc0) as Hmap.
  split; [|split; [|split]].
  - destruct Hfields as (? & ? & ? & ? & ? & ?), Hstep as (? & ? & ? & ? & ? & ?).
    repeat split; congruence.
  - intros name dc Hdc. destruct (Hsound name dc Hdc) as [Hold|(Hne & Hin & Hlab)].
    + rewrite Hmap in Hold.
      destruct (Labels c !! containerNameKey K) as [name0|] eqn:Hname0; [|by left].
      case_bool_decide as Hne0; [|by left].
      destruct (decide (name0 = name)) as [->|Hdiff].
      * rewrite lookup_insert_eq in Hold. injection Hold as <-.
        right. split; [done|]. split; [apply elem_of_cons; by left|done].
      * rewrite lookup_insert_ne in Hold by done. by left.
    + right. split; [done|]. split; [apply elem_of_cons; by right|done].
  - intros name Hname. apply Hmono. rewrite Hmap.
    destruct (Labels c !! containerNameKey K) as [name0|]; [|done].
    case_bool_decide; [|done].
    destruct (decide (name0 = name)) as [->|Hdiff].
    + rewrite lookup_insert_eq. by eexists.
    + by rewrite lookup_insert_ne.
  - intros dc name [->|Hdc]%elem_of_cons Hlab Hne.
    + apply Hmono. rewrite Hmap. simpl in Hlab. rewrite Hlab.
      rewrite bool_decide_eq_true_2 by done. rewrite lookup_insert_eq. by eexists.
    + by eapply Hcomplete.
Qed.

(** A pod returned by [NewPod] carries the configuration's ID and init
    volume directory and the driver's executor ID, but no labels, so its
    [TaskID] is the empty string.  Its name map holds the first container
    under the empty name; every other name leads to a member carrying
    that name label, and every member with a non-empty name label has its
    name in the map. *)
Theorem NewPod_pod_identity d podConfig out w pod
    (Hok : result (NewPod K L R d podConfig out w) = Ok pod) :
  id pod = pcID podConfig ∧
  podExecutorID pod = executorID d ∧
  initVolumeDir pod = InitVolumeDir podConfig ∧
  labels pod = None ∧ DockerPod_TaskID K pod = "" ∧
  containersMap pod !! "" = head (containers pod) ∧
  (∀ name dc, containersMap pod !! name = Some dc →
     dc ∈ containers pod ∧
     (name = "" ∨ Labels (dcContainer dc) !! containerNameKey K = Some name)) ∧
  (∀ dc name, dc ∈ containers pod →
     Labels (dcContainer dc) !! containerNameKey K = Some name →
     is_Some (containersMap pod !! name)).
Proof.
  assert (Containers podConfig ≠ []) as Hne.
  { intros Hnil. unfold NewPod in Hok. by rewrite Hnil in Hok. }
  rewrite NewPod_result in Hok by done.
  destruct (result (preparePod K L R d podConfig out w)) as [vols| |]; [|done..].
  rewrite rediscover_result in Hok.
  destruct (on_ContainerList R _ false _).1 as [listed|]; [|done].
  case_bool_decide as Hlen; [done|].
  unfold assemblePod in Hok.
  destruct (discover K listed _ ∅ 0%nat) as [[pod1 count]| |] eqn:Hdisc; [|done..].
  pose proof (discover_ok K _ _ _ _ _ _ Hdisc) as (Hcs & _).
  apply discover_names in Hdisc
    as ((Hid & Hlabels & _ & _ & Hexec & Hdir) & Hsound & _ & Hcomplete).
  simpl in *. case_bool_decide; [done|].
  destruct (slices_SortFunc _ _) as [|first sorted] eqn:Hsort; [done|].
  injection Hok as <-. unfold DockerPod_TaskID. simpl.
  rewrite Hlabels, lookup_insert_eq.
  assert (∀ dc, dc ∈ first :: sorted ↔ dc ∈ accepted K listed) as Hmem.
  { intros dc. by rewrite <- Hsort, slices_SortFunc_perm, Hcs. }
  do 6 (split; [done|]). split.
  - intros name dc Hdc. destruct (decide (name = "")) as [->|Hname].
    + rewrite lookup_insert_eq in Hdc. injection Hdc as <-.
      split; [apply elem_of_cons; by left|by left].
    + rewrite lookup_insert_ne in Hdc by done.
      destruct (Hsound name dc Hdc) as [Hold|(_ & Hin & Hlab)]; [done|].
      split; [by apply Hmem|by right].
  - intros dc name Hdc Hlab.
    destruct (decide (name = "")) as [->|Hname].
    + rewrite lookup_insert_eq. by eexists.
    + rewrite lookup_insert_ne by done. apply (Hcomplete dc); [by apply Hmem|done..].
Qed.
End NewPodMore.
